(** * pipeline-cli-go: the script command synthesizer and the job runner

    A shallow embedding of [cli/scripts.go]: flag naming ([getFlagName]),
    the argument handlers ([inputFunc], [optionFunc]), the type validator
    ([validateOption]), URI resolution ([pathToUri]), the last-job-id file
    ([storeLastId], [getLastId]) and the job runner ([jobExecution.run]).

    Go strings are [string]; Go maps are [gmap string _], a missing key
    reading as the nil slice; [error] values are an inductive type with a
    rendering function; the operating system and the Go libraries the code
    calls ([os.Stat], [net/url], [regexp], [strconv.ParseInt]) are fields of
    an environment record. *)

From Stdlib Require Import String Ascii List Bool Arith Lia.
From stdpp Require Import base option list strings gmap.

Local Open Scope string_scope.
Local Open Scope list_scope.

(** ** Go strings *)

Module GoString.

(** [strings.HasPrefix(s, prefix)]: [s] begins with [prefix]. *)
Fixpoint HasPrefix (s prefix : string) {struct prefix} : bool :=
  match prefix with
  | EmptyString => true
  | String c prefix' =>
      match s with
      | EmptyString => false
      | String d s' => if Ascii.eqb c d then HasPrefix s' prefix' else false
      end
  end.

(** [s[n:]]: [None] stands for the run-time panic "slice bounds out of
    range" that Go raises when [n] exceeds the length of [s]. *)
Fixpoint slice_from (n : nat) (s : string) : option string :=
  match n with
  | O => Some s
  | S n' =>
      match s with
      | EmptyString => None
      | String _ s' => slice_from n' s'
      end
  end.

(** [strings.Split(s, sep)] for a one-byte separator: a string with [n]
    separators gives [n + 1] fields, the empty string gives one empty
    field. *)
Fixpoint Split (s : string) (sep : ascii) : list string :=
  match s with
  | EmptyString => [EmptyString]
  | String c s' =>
      if Ascii.eqb c sep then EmptyString :: Split s' sep
      else
        match Split s' sep with
        | [] => [String c EmptyString]
        | f :: fs => String c f :: fs
        end
  end.

(** [strings.ReplaceAll(s, string(old), string(new))] for single bytes. *)
Fixpoint ReplaceAll (s : string) (old new : ascii) : string :=
  match s with
  | EmptyString => EmptyString
  | String c s' =>
      String (if Ascii.eqb c old then new else c) (ReplaceAll s' old new)
  end.

(** [strings.Join(fields, ",")]. *)
Fixpoint Join (fields : list string) (sep : ascii) : string :=
  match fields with
  | [] => EmptyString
  | [f] => f
  | f :: fs => f +:+ String sep (Join fs sep)
  end.

Definition eqb (a b : string) : bool := String.eqb a b.

(** [string(s[0])] of a string known to be non-empty. *)
Definition byte_at0 (s : string) : string :=
  match s with
  | EmptyString => EmptyString
  | String c _ => String c EmptyString
  end.

End GoString.

(** ** Flag naming *)

(** [subcommand.Flag]: only the long name is read by this file. *)
Record Flag := { Long : string; Short : string }.

Definition commonFlags : list string :=
  ["--output"; "--zip"; "--nicename"; "--priority"; "--quiet";
   "--persistent"; "--background"].

Definition flagsToString (flags : list Flag) : list string :=
  map Long flags.

(** The loop of [getFlagName]: the first flag equal to [flaggedName]
    returns the prefixed name. *)
Fixpoint getFlagName_loop (allFlags : list string) (flaggedName name prefix : string)
  : string :=
  match allFlags with
  | [] => name
  | f :: rest =>
      if GoString.eqb f flaggedName then prefix +:+ name
      else getFlagName_loop rest flaggedName name prefix
  end.

Definition getFlagName (name prefix : string) (flags : list Flag) : string :=
  let flaggedName := "--" +:+ name in
  let allFlags := commonFlags ++ flagsToString flags in
  getFlagName_loop allFlags flaggedName name prefix.

(** The control arguments that [scriptToCommand] and [addDataOption]
    register on every script command, by long name. *)
Definition controlArguments : list string :=
  ["output"; "zip"; "nicename"; "priority"; "quiet"; "persistent";
   "background"; "data"].

(** ** Errors and panics *)

Inductive Errno := ENOENT | EACCES | ENOTDIR | EIO.

(** Go [error] values met by this file: [errors.New] and [fmt.Errorf]
    strings (also used for the errors of [net/url] and [regexp]),
    [*os.PathError] and [*strconv.NumError]. *)
Inductive error :=
| errorString (s : string)
| PathError (op path : string) (errno : Errno)
| NumError (fn num msg : string).

Definition errors_New (s : string) : error := errorString s.

Definition Errno_text (e : Errno) : string :=
  match e with
  | ENOENT => "no such file or directory"
  | EACCES => "permission denied"
  | ENOTDIR => "not a directory"
  | EIO => "input/output error"
  end.

(** [os.IsNotExist(err)], [err] possibly nil. *)
Definition os_IsNotExist (err : option error) : bool :=
  match err with
  | Some (PathError _ _ ENOENT) => true
  | _ => false
  end.

(** A call that returns [(value, error)] with a meaningless value on error. *)
Inductive result (A : Type) :=
| Ok (a : A)
| Fail (e : error).
Arguments Ok {A} a.
Arguments Fail {A} e.

(** A computation that returns or panics. *)
Inductive go (A : Type) :=
| Ret (a : A)
| Panic (msg : string).
Arguments Ret {A} a.
Arguments Panic {A} msg.

(** ** URLs *)

(** [url.URL], with the fields this program sets or reads. *)
Record URL := {
  Scheme : string;
  Opaque : string;
  Host : string;
  Path : string;
}.

Definition URL_IsAbs (u : URL) : bool := negb (GoString.eqb (Scheme u) "").

Definition opaque_URL (s : string) : URL :=
  {| Scheme := ""; Opaque := s; Host := ""; Path := "" |}.

(** ** Data types of the pipeline client library *)

#[warnings="-register-all"]
Inductive DataType :=
| XsBoolean
| XsInteger
| XsAnyURI
| AnyFileURI
| AnyDirURI
| Pattern (pattern : string)
| Choice (Values : list DataType)
| Value (value : string)
| XsString.  (* any other type: the [default] case of the type switch *)

(** ** Job requests *)

Record JobRequest := {
  Script : string;
  Nicename : string;
  Priority : string;
  Options : gmap string (list string);
  Inputs : gmap string (list URL);
  Data : list Byte.byte;
  Background : bool;
}.

Definition newJobRequest : JobRequest :=
  {| Script := ""; Nicename := ""; Priority := ""; Options := ∅; Inputs := ∅;
     Data := []; Background := false |}.

(** [m[key]] of a Go map of slices: a missing key reads as the nil slice. *)
Definition map_index {A} (m : gmap string (list A)) (key : string) : list A :=
  default [] (m !! key).

(** [req.Inputs[name] = append(req.Inputs[name], u)]. *)
Definition append_input (req : JobRequest) (name : string) (u : URL) : JobRequest :=
  {| Script := Script req; Nicename := Nicename req; Priority := Priority req;
     Options := Options req;
     Inputs := <[name := map_index (Inputs req) name ++ [u]]> (Inputs req);
     Data := Data req; Background := Background req |}.

(** [req.Options[name] = append(req.Options[name], v)]. *)
Definition append_option (req : JobRequest) (name : string) (v : string) : JobRequest :=
  {| Script := Script req; Nicename := Nicename req; Priority := Priority req;
     Options := <[name := map_index (Options req) name ++ [v]]> (Options req);
     Inputs := Inputs req;
     Data := Data req; Background := Background req |}.

(** The appends of a run of values, in order. *)
Definition append_options (req : JobRequest) (name : string) (vs : list string)
  : JobRequest :=
  fold_left (fun q v => append_option q name v) vs req.

(** ** Jobs, messages and the link to the web service *)

(** [pipeline.Job]: the fields read by [run]. *)
Record Job := { Id : string; JobStatus : string }.

(** A message of the stream returned by [Execute]. *)
Record Message := { Status : string; Error : option error; Text : string }.

(** The link, by what its methods answer. The message channel is the list
    of messages received before the far end closes it. *)
Record PipelineLink := {
  IsLocal : bool;
  Execute : JobRequest -> result (Job * list Message);
  Results : string -> option error;
  Delete : string -> result bool;
}.

Record jobExecution := {
  link : PipelineLink;
  req : JobRequest;
  output : string;
  verbose : bool;
  persistent : bool;
  zipped : bool;
}.

(** What a run does to the outside, in order. *)
Inductive Event :=
| EvLog (dataLen : nat)
| EvWarning (text : string)
| EvExecute (request : JobRequest)
| EvStdout (text : string)
| EvCreate (path : string)
| EvWrite (path data : string)
| EvRecv (msg : Message)
| EvZipProcessor (output : string) (zipped : bool)
| EvResults (id : string)
| EvClose
| EvDelete (id : string).

(** The files of the machine, by path, and the events so far. *)
Record World := {
  files : gmap string string;
  trace : list Event;
}.

Definition emit (ev : Event) (w : World) : World :=
  {| files := files w; trace := trace w ++ [ev] |}.

Definition write_file (path data : string) (w : World) : World :=
  {| files := <[path := data]> (files w); trace := trace w |}.

Definition update_files (f : gmap string string -> gmap string string) (w : World)
  : World :=
  {| files := f (files w); trace := trace w |}.

Definition nl : string := String "010" EmptyString.


(** Receipts from the message stream. *)
Definition is_recv (ev : Event) : bool :=
  match ev with
  | EvRecv _ => true
  | _ => false
  end.

(** Calls to the web service. *)
Definition is_remote_call (ev : Event) : bool :=
  match ev with
  | EvExecute _ | EvResults _ | EvDelete _ => true
  | _ => false
  end.

(** ** The environment: operating system and library calls *)

(** The stages of writing the results of a job at the output: the writer
    is opened by [zipProcessor], written by [link.Results], and closed. *)
Inductive OutputStage := Opened | Written | Closed.

Record Env := {
  (** [filepath.Separator] of the platform. *)
  Separator : ascii;
  (** [os.Getwd()]. *)
  os_Getwd : result string;
  (** The error of [os.Stat(path)], nil when the path can be examined. *)
  os_Stat : string -> option error;
  (** [url.Parse]. *)
  url_Parse : string -> result URL;
  (** [base.ResolveReference(ref)]. *)
  URL_ResolveReference : URL -> URL -> URL;
  (** [u.String()]. *)
  URL_String : URL -> string;
  (** [regexp.MatchString(pattern, s)]. *)
  regexp_MatchString : string -> string -> result bool;
  (** [strconv.ParseInt(s, base, bitSize)]. *)
  strconv_ParseInt : string -> nat -> nat -> result Z;
  (** [strconv.Quote], used in the text of a [NumError]. *)
  strconv_Quote : string -> string;
  (** [optionTypeToString] and [uncolor], declared in other files of the
      package. *)
  optionTypeToString : DataType -> string -> string -> string;
  uncolor : string -> string;
  (** [LastIdPath = getLastIdPath(runtime.GOOS)]. *)
  LastIdPath : string;
  (** Faults of the file operations: the error of [os.Create(path)], of
      [file.Write(data)] with the number of bytes written before it, and
      of reading an existing file. *)
  create_fault : string -> option error;
  write_fault : string -> string -> option (nat * error);
  read_fault : string -> option error;
  (** The errors of [zipProcessor(output, zipped)] and of closing the
      writer it returns. *)
  zipProcessor_fault : string -> bool -> option error;
  Close_fault : option error;
  (** What a stage of writing the results leaves in the files, whether or
      not it fails: [output_effect stage output zipped id files] is the
      files after the stage. [zipProcessor] and the writer it returns are
      declared in another file of the package. *)
  output_effect :
    OutputStage -> string -> bool -> string -> gmap string string -> gmap string string;
}.

(** Calls to the file system, as [pathToUri] issues them. *)
Inductive FsCall := CallStat (path : string).

(** [strconv.ParseBool]. *)
Definition strconv_ParseBool (str : string) : result bool :=
  if existsb (GoString.eqb str) ["1"; "t"; "T"; "true"; "TRUE"; "True"] then Ok true
  else if existsb (GoString.eqb str) ["0"; "f"; "F"; "false"; "FALSE"; "False"]
  then Ok false
  else Fail (NumError "ParseBool" str "invalid syntax").

Definition strconv_FormatBool (b : bool) : string :=
  if b then "true" else "false".

Section WithEnv.

Context (env : Env).

(** [err.Error()]. *)
Definition Error_ (e : error) : string :=
  match e with
  | errorString s => s
  | PathError op path errno => op +:+ " " +:+ path +:+ ": " +:+ Errno_text errno
  | NumError fn num msg =>
      "strconv." +:+ fn +:+ ": parsing " +:+ strconv_Quote env num +:+ ": " +:+ msg
  end.

(** [filepath.ToSlash]: the identity where the separator is a slash. *)
Definition filepath_ToSlash (path : string) : string :=
  if Ascii.eqb (Separator env) "/" then path
  else GoString.ReplaceAll path (Separator env) "/".

Definition getBasePath (isLocal : bool) : go string :=
  if isLocal then
    match os_Getwd env with
    | Fail err => Panic ("Error while getting current directory:" +:+ Error_ err)
    | Ok base => Ret (base +:+ "/")
    end
  else Ret "".

(** The text [pathToUri] gives to [url.Parse] for the base: a leading
    slash is added where the base path has none. *)
Definition base_file_url (basePath : string) : string :=
  "file:" +:+
  (* for windows path to build a proper url *)
  (if negb (GoString.eqb (GoString.byte_at0 basePath) "/")
   then "/" +:+ basePath else basePath).

(** [pathToUri]: the named results [(u, err)], either of which may be
    nil, and the file system calls made. *)
Definition pathToUri (path basePath : string)
  : (option URL * option error) * list FsCall :=
  if negb (GoString.eqb basePath "") then
    match url_Parse env (base_file_url basePath) with
    | Fail err => ((None, Some err), [])
    | Ok baseUrl =>
        match url_Parse env (filepath_ToSlash path) with
        | Fail err => ((None, Some err), [])
        | Ok u =>
            let u := URL_ResolveReference env baseUrl u in
            let err := os_Stat env path in
            if os_IsNotExist err then ((Some u, err), [CallStat path])
            else if negb (GoString.eqb (Scheme u) "file") || negb (URL_IsAbs u)
            then ((Some u, Some (errors_New "unexpected error")), [CallStat path])
            else ((Some u, None), [CallStat path])
        end
    end
  else ((Some (opaque_URL (filepath_ToSlash path)), None), []).

(** The loop of the [Choice] case: [result] and [err] are overwritten by
    every variant tried, and the first variant without error ends it. *)
Fixpoint choice_loop (validate : DataType -> go (string * option error))
    (Values : list DataType) (result : string) (err : option error)
  : go (string * option error) :=
  match Values with
  | [] => Ret (result, err)
  | v :: rest =>
      match validate v with
      | Panic msg => Panic msg
      | Ret (result, None) => Ret (result, None)
      | Ret (result, Some e) => choice_loop validate rest result (Some e)
      end
  end.

(** A variant rejects the value: it returns an error, without panic. *)
Definition rejects (validate : DataType -> go (string * option error))
    (v : DataType) : Prop :=
  exists result e, validate v = Ret (result, Some e).

(** The text every failed validation starts with. *)
Definition does_not_match (t : DataType) : string :=
  "does not match " +:+ uncolor env (optionTypeToString env t "" "").

(** The statement after the type switch: a pending error is wrapped. *)
Definition wrap_error (optionType : DataType) (result : string) (err : option error)
  : string * option error :=
  match err with
  | Some e =>
      (result, Some (errors_New (does_not_match optionType +:+ ": " +:+ Error_ e)))
  | None => (result, None)
  end.

(** [validateOption(value, optionType, link)]; of the link only
    [link.IsLocal()] is read. *)
Fixpoint validateOption (value : string) (optionType : DataType) (isLocal : bool)
  : go (string * option error) :=
  match optionType with
  | XsBoolean =>
      match strconv_ParseBool value with
      | Ok b => Ret (wrap_error optionType (strconv_FormatBool b) None)
      | Fail e => Ret (wrap_error optionType value (Some e))
      end
  | XsInteger =>
      match strconv_ParseInt env value 0 0 with
      | Ok _ => Ret (wrap_error optionType value None)
      | Fail e => Ret (wrap_error optionType value (Some e))
      end
  | XsAnyURI => Ret (wrap_error optionType value None)
  | AnyFileURI | AnyDirURI =>
      match getBasePath isLocal with
      | Panic msg => Panic msg
      | Ret basePath =>
          match fst (pathToUri value basePath) with
          | (Some u, None) => Ret (wrap_error optionType (URL_String env u) None)
          | (_, err) => Ret (wrap_error optionType value err)
          end
      end
  | Pattern pattern =>
      match regexp_MatchString env ("^(?:" +:+ pattern +:+ ")$") value with
      | Ok false => Ret (value, Some (errors_New ("does not match /" +:+ pattern +:+ "/")))
      | Ok true => Ret (wrap_error optionType value None)
      | Fail e => Ret (wrap_error optionType value (Some e))
      end
  | Choice Values =>
      match
        choice_loop (fun v => validateOption value v isLocal) Values value None
      with
      | Panic msg => Panic msg
      | Ret (result, Some _) => Ret (result, Some (errors_New (does_not_match optionType)))
      | Ret (result, None) => Ret (wrap_error optionType result None)
      end
  | Value v =>
      if negb (GoString.eqb v value)
      then Ret (value, Some (errors_New ("does not match '" +:+ v +:+ "'")))
      else Ret (wrap_error optionType value None)
  | XsString => Ret (wrap_error optionType value None)
  end.

Definition validationError (optionName value : string) (cause : option error) : error :=
  let msg := "'" +:+ value +:+ "' is not allowed as the value for option --" +:+ optionName in
  match cause with
  | Some c => errors_New (msg +:+ ": " +:+ Error_ c)
  | None => errors_New msg
  end.

(** ** Argument handlers *)

(** The "control prefix" statement of both handlers:
    [if strings.HasPrefix(prefix, name) { name = name[2:] }]. *)
Definition control_prefix (prefix name : string) : go string :=
  if GoString.HasPrefix prefix name then
    match GoString.slice_from 2 name with
    | Some name' => Ret name'
    | None => Panic "slice bounds out of range"
    end
  else Ret name.

(** A handler runs on the job request of its command and returns an
    error, nil, or panics. *)
Definition Handler : Type := JobRequest -> go (option error) * JobRequest.

(** The loop of [inputFunc] over the comma-separated paths. *)
Fixpoint inputFunc_loop (name basePath : string) (paths : list string)
    (req : JobRequest) : go (option error) * JobRequest :=
  match paths with
  | [] => (Ret None, req)
  | path :: rest =>
      match fst (pathToUri path basePath) with
      | (_, Some err) => (Ret (Some err), req)
      | (Some u, None) => inputFunc_loop name basePath rest (append_input req name u)
      | (None, None) => (Panic "nil pointer dereference", req)
      end
  end.

(** [inputFunc(req, link)(name, value)]. *)
Definition inputFunc (isLocal : bool) (name value : string) : Handler :=
  fun req =>
    match getBasePath isLocal with
    | Panic msg => (Panic msg, req)
    | Ret basePath =>
        match control_prefix "i-" name with
        | Panic msg => (Panic msg, req)
        | Ret name => inputFunc_loop name basePath (GoString.Split value ",") req
        end
    end.

(** The loop of [optionFunc] for a sequence option. *)
Fixpoint optionFunc_loop (optionType : DataType) (isLocal : bool) (name : string)
    (values : list string) (req : JobRequest) : go (option error) * JobRequest :=
  match values with
  | [] => (Ret None, req)
  | v :: rest =>
      match validateOption v optionType isLocal with
      | Panic msg => (Panic msg, req)
      | Ret (v, Some err) => (Ret (Some (validationError name v (Some err))), req)
      | Ret (v, None) =>
          optionFunc_loop optionType isLocal name rest (append_option req name v)
      end
  end.

(** [optionFunc(req, link, optionType, sequence)(name, value)]. *)
Definition optionFunc (isLocal : bool) (optionType : DataType) (sequence : bool)
    (name value : string) : Handler :=
  fun req =>
    match control_prefix "x-" name with
    | Panic msg => (Panic msg, req)
    | Ret name =>
        if sequence then
          optionFunc_loop optionType isLocal name (GoString.Split value ",") req
        else
          match validateOption value optionType isLocal with
          | Panic msg => (Panic msg, req)
          | Ret (value, Some err) =>
              (Ret (Some (validationError name value (Some err))), req)
          | Ret (value, None) => (Ret None, append_option req name value)
          end
    end.

(** ** The last-job-id file *)

(** [storeLastId(id)]: [os.Create] truncates the file, [file.Write]
    writes the bytes of the id. *)
Definition storeLastId (id : string) (w : World) : option error * World :=
  let w := emit (EvCreate (LastIdPath env)) w in
  match create_fault env (LastIdPath env) with
  | Some err => (Some err, w)
  | None =>
      let w := write_file (LastIdPath env) "" w in
      let w := emit (EvWrite (LastIdPath env) id) w in
      match write_fault env (LastIdPath env) id with
      | Some (n, err) =>
          (Some err, write_file (LastIdPath env) (String.substring 0 n id) w)
      | None => (None, write_file (LastIdPath env) id w)
      end
  end.

(** The events of [storeLastId(id)]. *)
Definition store_events (id : string) : list Event :=
  EvCreate (LastIdPath env) ::
  match create_fault env (LastIdPath env) with
  | Some _ => []
  | None => [EvWrite (LastIdPath env) id]
  end.

(** [getLastId()]: the named results [(id, err)]. *)
Definition getLastId (w : World) : string * option error :=
  match files w !! LastIdPath env with
  | None => ("", Some (PathError "open" (LastIdPath env) ENOENT))
  | Some idBuf =>
      match read_fault env (LastIdPath env) with
      | Some err => ("", Some err)
      | None => (idBuf, None)
      end
  end.

(** ** Running a job *)

(** [for msg := range messages]: an error message returns its error,
    any other message sets the status. *)
Fixpoint consume (verbose : bool) (messages : list Message) (status : string)
    (w : World) : result string * World :=
  match messages with
  | [] => (Ok status, w)
  | msg :: rest =>
      let w := emit (EvRecv msg) w in
      match Error msg with
      | Some err => (Fail err, w)
      | None =>
          let w := if verbose then emit (EvStdout (Text msg +:+ nl)) w else w in
          consume verbose rest (Status msg) w
      end
  end.

(** The branch of [run] that fetches the results: each of its three
    stages of writing at the output leaves its mark in the files before
    its error is looked at. *)
Definition finalize (j : jobExecution) (job : Job) (status : string) (w : World)
  : option error * World :=
  let stage s := update_files (output_effect env s (output j) (zipped j) (Id job)) in
  let w := stage Opened (emit (EvZipProcessor (output j) (zipped j)) w) in
  match zipProcessor_fault env (output j) (zipped j) with
  | Some err => (Some err, w)
  | None =>
      let w := stage Written (emit (EvResults (Id job)) w) in
      match Results (link j) (Id job) with
      | Some err => (Some err, w)
      | None =>
          let w := stage Closed (emit EvClose w) in
          match Close_fault env with
          | Some err => (Some err, w)
          | None =>
              let finish w :=
                (None, emit (EvStdout ("Job finished with status: " +:+ status +:+ nl)) w) in
              if negb (persistent j) then
                let w := emit (EvDelete (Id job)) w in
                match Delete (link j) (Id job) with
                | Fail err => (Some err, w)
                | Ok _ =>
                    finish (emit (EvStdout ("The job has been deleted from the server" +:+ nl)) w)
                end
              else finish w
          end
      end
  end.

(** The files after the three stages of writing the results. *)
Definition results_written (j : jobExecution) (job : Job)
    (fs : gmap string string) : gmap string string :=
  output_effect env Closed (output j) (zipped j) (Id job)
    (output_effect env Written (output j) (zipped j) (Id job)
       (output_effect env Opened (output j) (zipped j) (Id job) fs)).

(** The statements of [run] from the message loop on: the loop, then,
    unless the last status is [ERROR] or the job runs in the background,
    the results. *)
Definition stream_and_fetch (j : jobExecution) (job : Job) (messages : list Message)
    (w : World) : option error * World :=
  match consume (verbose j) messages (JobStatus job) w with
  | (Fail err, w) => (Some err, w)
  | (Ok status, w) =>
      if negb (GoString.eqb status "ERROR") then
        if negb (Background (req j)) then finalize j job status w
        else (None, w)
      else (None, w)
  end.

(** The line that reports the id of the job. *)
Definition echo_sent (job : Job) : Event :=
  EvStdout ("Job " +:+ Id job +:+ " sent to the server" +:+ nl).

(** The warning of a background run that was given an output. *)
Definition warning_events (j : jobExecution) : list Event :=
  if Background (req j) && negb (GoString.eqb (output j) "") then
    [EvWarning
       ("Warning: --output option ignored as the job will run in the background" +:+ nl)]
  else [].

(** [jobExecution.run(stdOut)]. *)
Definition run (j : jobExecution) (w : World) : option error * World :=
  let w := emit (EvLog (length (Data (req j)))) w in
  if negb (Background (req j)) && GoString.eqb (output j) "" then
    (Some (errors_New
       "--output option is mandatory if the job is not running in the req.Background"), w)
  else
    let w :=
      if Background (req j) && negb (GoString.eqb (output j) "") then
        emit (EvWarning
          ("Warning: --output option ignored as the job will run in the background" +:+ nl)) w
      else w in
    let storeId := Background (req j) || persistent j in
    let w := emit (EvExecute (req j)) w in
    match Execute (link j) (req j) with
    | Fail err => (Some err, w)
    | Ok (job, messages) =>
        let w := emit (echo_sent job) w in
        let '(err, w) := if storeId then storeLastId (Id job) w else (None, w) in
        match err with
        | Some err => (Some err, w)
        | None => stream_and_fetch j job messages w
        end
    end.

End WithEnv.

(** ** A concrete environment

    The examples below run on this environment. Its library functions
    follow [net/url], [regexp] and [strconv] on the inputs the examples
    use: URLs without query, fragment, escapes, user information and dot
    segments; patterns without metacharacters; decimal integers. *)

Module Sample.

Definition is_letter (c : ascii) : bool :=
  let n := nat_of_ascii c in
  (Nat.leb 97 n && Nat.leb n 122) || (Nat.leb 65 n && Nat.leb n 90).

Definition is_digit (c : ascii) : bool :=
  let n := nat_of_ascii c in Nat.leb 48 n && Nat.leb n 57.

Definition is_scheme_extra (c : ascii) : bool :=
  is_digit c || Ascii.eqb c "+" || Ascii.eqb c "-" || Ascii.eqb c ".".

(** [getScheme] of [net/url]: the scheme read so far is [acc]. *)
Fixpoint getScheme_from (acc rest rawURL : string) : result (string * string) :=
  match rest with
  | EmptyString => Ok ("", rawURL)
  | String c rest' =>
      if is_letter c then getScheme_from (acc +:+ String c "") rest' rawURL
      else if is_scheme_extra c then
        if GoString.eqb acc "" then Ok ("", rawURL)
        else getScheme_from (acc +:+ String c "") rest' rawURL
      else if Ascii.eqb c ":" then
        if GoString.eqb acc "" then Fail (errorString "missing protocol scheme")
        else Ok (acc, rest')
      else Ok ("", rawURL)
  end.

Definition getScheme (rawURL : string) : result (string * string) :=
  getScheme_from "" rawURL rawURL.

Definition to_lower (c : ascii) : ascii :=
  let n := nat_of_ascii c in
  if Nat.leb 65 n && Nat.leb n 90 then ascii_of_nat (n + 32) else c.

Fixpoint ToLower (s : string) : string :=
  match s with
  | EmptyString => EmptyString
  | String c s' => String (to_lower c) (ToLower s')
  end.

Fixpoint contains_byte (c : ascii) (s : string) : bool :=
  match s with
  | EmptyString => false
  | String d s' => Ascii.eqb c d || contains_byte c s'
  end.

Definition Parse (rawURL : string) : result URL :=
  match getScheme rawURL with
  | Fail e => Fail e
  | Ok (scheme, rest) =>
      let scheme := ToLower scheme in
      if negb (GoString.HasPrefix rest "/") then
        if negb (GoString.eqb scheme "") then
          Ok {| Scheme := scheme; Opaque := rest; Host := ""; Path := "" |}
        else
          match GoString.Split rest "/" with
          | segment :: _ =>
              if contains_byte ":" segment then
                Fail (errorString "first path segment in URL cannot contain colon")
              else Ok {| Scheme := scheme; Opaque := ""; Host := ""; Path := rest |}
          | [] => Ok {| Scheme := scheme; Opaque := ""; Host := ""; Path := rest |}
          end
      else if GoString.HasPrefix rest "//" && negb (GoString.HasPrefix rest "///") then
        match GoString.Split (String.substring 2 (String.length rest) rest) "/" with
        | authority :: segments =>
            Ok {| Scheme := scheme; Opaque := ""; Host := authority;
                  Path := match segments with
                          | [] => ""
                          | _ => "/" +:+ GoString.Join segments "/"
                          end |}
        | [] => Ok {| Scheme := scheme; Opaque := ""; Host := ""; Path := "" |}
        end
      else Ok {| Scheme := scheme; Opaque := ""; Host := ""; Path := rest |}
  end.

(** [base[:LastIndex(base, "/") + 1]]. *)
Definition dir_of (base : string) : string :=
  match rev (GoString.Split base "/") with
  | [] => ""
  | _ :: rdirs =>
      match rdirs with
      | [] => ""
      | _ => GoString.Join (rev rdirs) "/" +:+ "/"
      end
  end.

Definition resolvePath (base ref : string) : string :=
  if GoString.eqb ref "" then base
  else if GoString.HasPrefix ref "/" then ref
  else dir_of base +:+ ref.

Definition ResolveReference (base ref : URL) : URL :=
  if negb (GoString.eqb (Scheme ref) "") || negb (GoString.eqb (Host ref) "") then
    {| Scheme := if GoString.eqb (Scheme ref) "" then Scheme base else Scheme ref;
       Opaque := Opaque ref; Host := Host ref; Path := resolvePath (Path ref) "" |}
  else if negb (GoString.eqb (Opaque ref) "") then
    {| Scheme := Scheme base; Opaque := Opaque ref; Host := ""; Path := "" |}
  else if GoString.eqb (Path ref) "" && negb (GoString.eqb (Opaque base) "") then
    {| Scheme := Scheme base; Opaque := Opaque base; Host := ""; Path := "" |}
  else
    {| Scheme := Scheme base; Opaque := ""; Host := Host base;
       Path := resolvePath (Path base) (Path ref) |}.

Definition String_ (u : URL) : string :=
  (if GoString.eqb (Scheme u) "" then "" else Scheme u +:+ ":") +:+
  (if negb (GoString.eqb (Opaque u) "") then Opaque u
   else
     (if (negb (GoString.eqb (Scheme u) "") || negb (GoString.eqb (Host u) ""))
         && (negb (GoString.eqb (Host u) "") || negb (GoString.eqb (Path u) ""))
      then "//" +:+ Host u else "") +:+
     (if negb (GoString.eqb (Path u) "") && negb (GoString.HasPrefix (Path u) "/")
         && negb (GoString.eqb (Host u) "")
      then "/" else "") +:+ Path u).

Definition MatchString (pattern s : string) : result bool :=
  Ok (GoString.eqb pattern ("^(?:" +:+ s +:+ ")$")).

Fixpoint all_digits (s : string) : bool :=
  match s with
  | EmptyString => true
  | String c s' => is_digit c && all_digits s'
  end.

Definition ParseInt (s : string) (base bitSize : nat) : result Z :=
  let digits :=
    match s with
    | String "-" s' => s'
    | String "+" s' => s'
    | _ => s
    end in
  if negb (GoString.eqb digits "") && all_digits digits then Ok 0%Z
  else Fail (NumError "ParseInt" s "invalid syntax").

Definition Quote (s : string) : string :=
  String "034" s +:+ String "034" EmptyString.

Fixpoint typeToString (t : DataType) (indent arg : string) : string :=
  match t with
  | XsBoolean => "BOOLEAN"
  | XsInteger => "INTEGER"
  | XsAnyURI => "URI"
  | AnyFileURI => "FILE"
  | AnyDirURI => "DIR"
  | Pattern p => "/" +:+ p +:+ "/"
  | Choice vs => "CHOICE(" +:+ GoString.Join (map (fun v => typeToString v indent arg) vs) "|" +:+ ")"
  | Value v => "'" +:+ v +:+ "'"
  | XsString => "STRING"
  end.

(** The results on the sample machine: an archive at the output, or a
    file in the folder at the output. *)
Definition write_results (stage : OutputStage) (output : string) (zipped : bool)
    (id : string) (fs : gmap string string) : gmap string string :=
  match stage with
  | Opened => if zipped then <[output := ""]> fs else fs
  | Written => if zipped then <[output := "archive of " +:+ id]> fs else fs
  | Closed => if zipped then fs else <[output +:+ "/result.xml" := "result of " +:+ id]> fs
  end.

(** The sample machine: its separator, its [os.Stat] and nothing that
    fails among the file operations. *)
Definition env (sep : ascii) (stat : string -> option error) : Env :=
  {| Separator := sep;
     os_Getwd := Ok "/cwd";
     os_Stat := stat;
     url_Parse := Parse;
     URL_ResolveReference := ResolveReference;
     URL_String := String_;
     regexp_MatchString := MatchString;
     strconv_ParseInt := ParseInt;
     strconv_Quote := Quote;
     optionTypeToString := typeToString;
     uncolor := fun s => s;
     LastIdPath := "/home/user/.daisy-pipeline/lastid";
     create_fault := fun _ => None;
     write_fault := fun _ _ => None;
     read_fault := fun _ => None;
     zipProcessor_fault := fun _ _ => None;
     Close_fault := None;
     output_effect := write_results |}.

(** A Unix machine on which every path exists. *)
Definition unix : Env := env "/" (fun _ => None).

(** A Windows machine on which every path exists. *)
Definition windows : Env := env "\" (fun _ => None).

(** A link whose [Execute] creates the job [job-42] and delivers the
    given messages, and whose other calls succeed. *)
Definition link_with (messages : list Message) : PipelineLink :=
  {| IsLocal := false;
     Execute := fun _ => Ok ({| Id := "job-42"; JobStatus := "IDLE" |}, messages);
     Results := fun _ => None;
     Delete := fun _ => Ok true |}.

Definition request (background : bool) : JobRequest :=
  {| Script := "dtbook-to-epub3"; Nicename := ""; Priority := "";
     Options := ∅; Inputs := ∅; Data := []; Background := background |}.

Definition job_with (background persist : bool) (out : string)
    (messages : list Message) : jobExecution :=
  {| link := link_with messages; req := request background; output := out;
     verbose := true; persistent := persist; zipped := false |}.

Definition running : Message :=
  {| Status := "RUNNING"; Error := None; Text := "[INFO] converting" |}.

Definition finished : Message :=
  {| Status := "DONE"; Error := None; Text := "[INFO] done" |}.

(** A machine whose last-job-id file holds the id of an earlier job. *)
Definition world0 : World :=
  {| files := {[ "/home/user/.daisy-pipeline/lastid" := "job-41" ]}; trace := [] |}.

(** A Unix machine on which [os.Stat] is refused for every path. *)
Definition no_permission : Env :=
  env "/" (fun path => Some (PathError "stat" path EACCES)).

End Sample.

(** ** The rest of the script command *)

(** The appends of a run of references, in order. *)
Definition append_inputs (req : JobRequest) (name : string) (us : list URL)
  : JobRequest :=
  fold_left (fun q u => append_input q name u) us req.

(** [req'] is [req] with values appended: the scalar fields are the same
    and every sequence of [req], of inputs or of options, begins the
    sequence [req'] has under the same key. *)
Definition only_appended (req req' : JobRequest) : Prop :=
  Script req' = Script req /\
  Nicename req' = Nicename req /\
  Priority req' = Priority req /\
  Data req' = Data req /\
  Background req' = Background req /\
  (forall key, exists added,
      map_index (Inputs req') key = map_index (Inputs req) key ++ added) /\
  (forall key, exists added,
      map_index (Options req') key = map_index (Options req) key ++ added).

(** Events of the branch of [run] that fetches the results. *)
Definition is_fetch (ev : Event) : bool :=
  match ev with
  | EvZipProcessor _ _ | EvResults _ | EvClose | EvDelete _ => true
  | _ => false
  end.

Definition is_delete (ev : Event) : bool :=
  match ev with
  | EvDelete _ => true
  | _ => false
  end.

(** The events of the message loop on messages without error: each is
    received and, unless the run is quiet, printed. *)
Definition message_events (verbose : bool) (messages : list Message) : list Event :=
  flat_map
    (fun msg => EvRecv msg :: if verbose then [EvStdout (Text msg +:+ nl)] else [])
    messages.

(** The status after the message loop: that of the last message, or of
    the job when there was none. *)
Definition final_status (job : Job) (messages : list Message) : string :=
  List.last (map Status messages) (JobStatus job).

(** The events of fetching the results when nothing fails. *)
Definition fetch_events (j : jobExecution) (job : Job) (status : string) : list Event :=
  [EvZipProcessor (output j) (zipped j); EvResults (Id job); EvClose] ++
  (if persistent j then []
   else [EvDelete (Id job);
         EvStdout ("The job has been deleted from the server" +:+ nl)]) ++
  [EvStdout ("Job finished with status: " +:+ status +:+ nl)].

(** The events of a run whose job is created and whose id is stored
    without error, up to the message loop: the log line, the possible
    warning, the call of [Execute], the report of the id and, in the
    background or when persistent, the events of [storeLastId]. *)
Definition submit_events (env : Env) (j : jobExecution) (job : Job) : list Event :=
  [EvLog (length (Data (req j)))] ++ warning_events j ++
  [EvExecute (req j); echo_sent job] ++
  (if Background (req j) || persistent j then store_events env (Id job) else []).


(** The job execution that [scriptToCommand] creates for a script. *)
Definition new_jobExecution (lnk : PipelineLink) (scriptId : string) : jobExecution :=
  {| link := lnk;
     req := {| Script := scriptId; Nicename := ""; Priority := ""; Options := ∅;
               Inputs := ∅; Data := []; Background := false |};
     output := ""; verbose := true; persistent := false; zipped := false |}.

(** The control arguments that [scriptToCommand] registers, with the value
    given on the command line. *)
Inductive ControlArg :=
| ArgOutput (folder : string)
| ArgZip
| ArgNicename (nice : string)
| ArgPriority (priority : string)
| ArgQuiet
| ArgPersistent
| ArgBackground.

Definition with_req (j : jobExecution) (r : JobRequest) : jobExecution :=
  {| link := link j; req := r; output := output j; verbose := verbose j;
     persistent := persistent j; zipped := zipped j |}.

(** The handlers of the control arguments; [checkPriority] is declared in
    another file of the package. *)
Definition controlFunc (checkPriority : string -> bool) (arg : ControlArg)
    (j : jobExecution) : option error * jobExecution :=
  match arg with
  | ArgOutput folder =>
      (None, {| link := link j; req := req j; output := folder; verbose := verbose j;
                persistent := persistent j; zipped := zipped j |})
  | ArgZip =>
      (None, {| link := link j; req := req j; output := output j; verbose := verbose j;
                persistent := persistent j; zipped := true |})
  | ArgNicename nice =>
      (None, with_req j
         {| Script := Script (req j); Nicename := nice; Priority := Priority (req j);
            Options := Options (req j); Inputs := Inputs (req j);
            Data := Data (req j); Background := Background (req j) |})
  | ArgPriority priority =>
      if checkPriority priority then
        (None, with_req j
           {| Script := Script (req j); Nicename := Nicename (req j); Priority := priority;
              Options := Options (req j); Inputs := Inputs (req j);
              Data := Data (req j); Background := Background (req j) |})
      else
        (Some (errors_New
           (priority +:+ " is not a valid priority. Allowed values are high, medium and low")),
         j)
  | ArgQuiet =>
      (None, {| link := link j; req := req j; output := output j; verbose := false;
                persistent := persistent j; zipped := zipped j |})
  | ArgPersistent =>
      (None, {| link := link j; req := req j; output := output j; verbose := verbose j;
                persistent := true; zipped := zipped j |})
  | ArgBackground =>
      (None, with_req j
         {| Script := Script (req j); Nicename := Nicename (req j);
            Priority := Priority (req j);
            Options := Options (req j); Inputs := Inputs (req j);
            Data := Data (req j); Background := true |})
  end.

(** The handlers of a run of control arguments, called in order up to the
    first error. *)
Fixpoint controlFuncs (checkPriority : string -> bool) (args : list ControlArg)
    (j : jobExecution) : option error * jobExecution :=
  match args with
  | [] => (None, j)
  | arg :: rest =>
      match controlFunc checkPriority arg j with
      | (Some err, j) => (Some err, j)
      | (None, j) => controlFuncs checkPriority rest j
      end
  end.

(** A control argument that gives the run somewhere to go: an output or
    the background. *)
Definition is_destination (arg : ControlArg) : bool :=
  match arg with
  | ArgOutput _ | ArgBackground => true
  | _ => false
  end.

(** ** The client commands *)

Module Clients.

(** [pipeline.Client]. *)
Record Client := {
  Id : string;
  Role : string;
  Contact : string;
  Secret : string;
}.

(** The web service, by what its client calls answer. *)
Record Pipeline := {
  GetClient : string -> result Client;
  ModifyClient : Client -> string -> result Client;
}.

Inductive Call :=
| CallClient (id : string)
| CallModifyClient (client : Client) (id : string)
| CallPrintln (text : string)
| CallRender (client : Client).

(** The handler of the [role] option of the [create] and [modify]
    commands. *)
Definition roleFunc (value : string) (client : Client) : option error * Client :=
  if negb (GoString.eqb value "ADMIN") && negb (GoString.eqb value "CLIENTAPP") then
    (Some (errors_New (value +:+ " is not a valid role")), client)
  else
    (None, {| Id := Id client; Role := value; Contact := Contact client;
              Secret := Secret client |}).

Definition secretFunc (value : string) (client : Client) : option error * Client :=
  (None, {| Id := Id client; Role := Role client; Contact := Contact client;
            Secret := value |}).

Definition contactFunc (value : string) (client : Client) : option error * Client :=
  (None, {| Id := Id client; Role := Role client; Contact := value;
            Secret := Secret client |}).

(** The fields of the client sent by the [modify] command: a field left
    empty by the options takes the value the server has. *)
Definition merge (client old : Client) (id : string) : Client :=
  {| Id := id;
     Role := if Nat.eqb (String.length (Role client)) 0 then Role old else Role client;
     Contact :=
       if Nat.eqb (String.length (Contact client)) 0 then Contact old else Contact client;
     Secret :=
       if Nat.eqb (String.length (Secret client)) 0 then Secret old else Secret client |}.

(** The options of the [modify] command, with the value given on the
    command line. *)
Inductive ClientArg :=
| ArgSecret (value : string)
| ArgRole (value : string)
| ArgContact (value : string).

Definition clientFunc (arg : ClientArg) (client : Client) : option error * Client :=
  match arg with
  | ArgSecret value => secretFunc value client
  | ArgRole value => roleFunc value client
  | ArgContact value => contactFunc value client
  end.

(** The handlers of a run of options, called in order up to the first
    error. *)
Fixpoint clientFuncs (args : list ClientArg) (client : Client) : option error * Client :=
  match args with
  | [] => (None, client)
  | arg :: rest =>
      match clientFunc arg client with
      | (Some err, client) => (Some err, client)
      | (None, client) => clientFuncs rest client
      end
  end.

(** [&pipeline.Client{}]: the client the options of a command start
    from. *)
Definition empty : Client := {| Id := ""; Role := ""; Contact := ""; Secret := "" |}.

(** The body of the [modify] command for the client id [args[0]];
    [parse] is the error of parsing the client template. The client
    built by the options is shared by the handlers and the body, and is
    returned as the body leaves it. *)
Definition modify (p : Pipeline) (parse : option error) (client : Client) (id : string)
  : option error * Client * list Call :=
  let client := {| Id := id; Role := Role client; Contact := Contact client;
                   Secret := Secret client |} in
  match GetClient p id with
  | Fail err => (Some err, client, [CallClient id])
  | Ok old =>
      let client := merge client old id in
      match ModifyClient p client id with
      | Fail err => (Some err, client, [CallClient id; CallModifyClient client id])
      | Ok res =>
          match parse with
          | Some err => (Some err, client, [CallClient id; CallModifyClient client id])
          | None =>
              (None, client,
               [CallClient id; CallModifyClient client id;
                CallPrintln "Client successfully modified"; CallRender res])
          end
      end
  end.

End Clients.

(** ** More examples *)

Module Scenario.

(** A Unix machine on which [b.xml] does not exist. *)
Definition missing_b : Env :=
  Sample.env "/"
    (fun path =>
       if GoString.eqb path "b.xml" then Some (PathError "stat" path ENOENT) else None).

(** A Unix machine on which the last-job-id file cannot be created. *)
Definition read_only : Env :=
  {| Separator := "/";
     os_Getwd := Ok "/cwd";
     os_Stat := fun _ => None;
     url_Parse := Sample.Parse;
     URL_ResolveReference := Sample.ResolveReference;
     URL_String := Sample.String_;
     regexp_MatchString := Sample.MatchString;
     strconv_ParseInt := Sample.ParseInt;
     strconv_Quote := Sample.Quote;
     optionTypeToString := Sample.typeToString;
     uncolor := fun s => s;
     LastIdPath := "/home/user/.daisy-pipeline/lastid";
     create_fault := fun path => Some (PathError "open" path EACCES);
     write_fault := fun _ _ => None;
     read_fault := fun _ => None;
     zipProcessor_fault := fun _ _ => None;
     Close_fault := None;
     output_effect := Sample.write_results |}.

(** A message that carries an error. *)
Definition broken : Message :=
  {| Status := "RUNNING"; Error := Some (errorString "connection lost"); Text := "" |}.

(** A message with the status of a failed job. *)
Definition failed : Message :=
  {| Status := "ERROR"; Error := None; Text := "[ERROR] conversion failed" |}.


(** A link whose [Execute] fails. *)
Definition down : PipelineLink :=
  {| IsLocal := false;
     Execute := fun _ => Fail (errorString "connection refused");
     Results := fun _ => None;
     Delete := fun _ => Ok true |}.

Definition checkPriority (priority : string) : bool :=
  existsb (GoString.eqb priority) ["high"; "medium"; "low"].

Definition admin : Clients.Client :=
  {| Clients.Id := "boss"; Clients.Role := "ADMIN";
     Clients.Contact := "boss@example.org"; Clients.Secret := "s3cret" |}.

(** A web service that knows the client [boss] and stores what it is
    sent. *)
Definition service : Clients.Pipeline :=
  {| Clients.GetClient := fun id =>
       if GoString.eqb id "boss" then Ok admin
       else Fail (errorString "client not found");
     Clients.ModifyClient := fun client _ => Ok client |}.

End Scenario.

(** * Properties *)

(** ** Strings *)

Lemma eqb_true_iff (a b : string) : GoString.eqb a b = true <-> a = b.
Proof. apply String.eqb_eq. Qed.

Lemma eqb_refl (a : string) : GoString.eqb a a = true.
Proof. apply String.eqb_refl. Qed.

Lemma ReplaceAll_same (s : string) (c : ascii) : GoString.ReplaceAll s c c = s.
Proof.
  induction s as [|d s IH]; simpl; [reflexivity|].
  rewrite IH. destruct (Ascii.eqb_spec d c); congruence.
Qed.

Lemma HasPrefix_length (s prefix : string) :
  GoString.HasPrefix s prefix = true -> String.length prefix <= String.length s.
Proof.
  revert s. induction prefix as [|c prefix IH]; intros s H; simpl in *; [lia|].
  destruct s as [|d s]; [discriminate H|].
  destruct (Ascii.eqb c d); [|discriminate H].
  apply IH in H. simpl. lia.
Qed.

(** ** Flag naming *)

Lemma getFlagName_loop_In (allFlags : list string) (flaggedName name prefix : string) :
  In flaggedName allFlags ->
  getFlagName_loop allFlags flaggedName name prefix = prefix +:+ name.
Proof.
  induction allFlags as [|f rest IH]; intros Hin; simpl; [destruct Hin|].
  destruct (GoString.eqb f flaggedName) eqn:E; [reflexivity|].
  destruct Hin as [Heq|Hin]; [|auto].
  subst f. rewrite eqb_refl in E. discriminate E.
Qed.

Lemma getFlagName_loop_not_In (allFlags : list string) (flaggedName name prefix : string) :
  ~ In flaggedName allFlags ->
  getFlagName_loop allFlags flaggedName name prefix = name.
Proof.
  induction allFlags as [|f rest IH]; intros Hn; simpl; [reflexivity|].
  destruct (GoString.eqb f flaggedName) eqn:E.
  - apply eqb_true_iff in E. subst. exfalso. apply Hn. now left.
  - apply IH. intros Hin. apply Hn. now right.
Qed.

(** A name listed in [commonFlags], or already registered on the command,
    is exposed with the prefix. *)
Lemma getFlagName_collision (name prefix : string) (flags : list Flag) :
  In ("--" +:+ name) (commonFlags ++ flagsToString flags) ->
  getFlagName name prefix flags = prefix +:+ name.
Proof. apply getFlagName_loop_In. Qed.

(** Any other name is exposed as declared. *)
Lemma getFlagName_free (name prefix : string) (flags : list Flag) :
  ~ In ("--" +:+ name) (commonFlags ++ flagsToString flags) ->
  getFlagName name prefix flags = name.
Proof. apply getFlagName_loop_not_In. Qed.

(** The seven control arguments of [commonFlags] are prefixed, whatever
    is registered on the command. *)
Lemma getFlagName_commonFlags (name prefix : string) (flags : list Flag) :
  In name ["output"; "zip"; "nicename"; "priority"; "quiet"; "persistent"; "background"] ->
  getFlagName name prefix flags = prefix +:+ name.
Proof.
  intros Hin. apply getFlagName_collision. apply in_or_app. left.
  simpl in Hin.
  repeat (destruct Hin as [<-|Hin]; [simpl; tauto|]).
  destruct Hin.
Qed.

(** C8: the control argument [data] is one of the eight control arguments,
    yet a script input or option named [data] is exposed under that very
    name, without the [i-] or [x-] prefix, on a command that has no [data]
    flag yet: [commonFlags] lists seven names and [--data] is not among
    them. *)
Theorem getFlagName_data_not_prefixed :
  In "data" controlArguments /\
  getFlagName "data" "i-" [] = "data" /\
  getFlagName "data" "x-" [] = "data".
Proof.
  split; [|split]; [|reflexivity|reflexivity].
  unfold controlArguments. simpl. tauto.
Qed.

(** ** The control prefix of the handlers *)

(** The test [strings.HasPrefix(prefix, name)] asks whether the prefix
    begins with the name: it fails for every name longer than the prefix,
    which is then kept whole. *)
Lemma control_prefix_long (prefix name : string) :
  String.length prefix < String.length name ->
  control_prefix prefix name = Ret name.
Proof.
  intros Hlen. unfold control_prefix.
  destruct (GoString.HasPrefix prefix name) eqn:E; [|reflexivity].
  apply HasPrefix_length in E. lia.
Qed.

(** In particular a prefixed name stays prefixed. *)
Lemma control_prefix_prefixed (c : ascii) (declared : string) :
  control_prefix "i-" ("i-" +:+ String c declared) = Ret ("i-" +:+ String c declared) /\
  control_prefix "x-" ("x-" +:+ String c declared) = Ret ("x-" +:+ String c declared).
Proof.
  split; apply control_prefix_long; simpl; lia.
Qed.

(** C1: the handler of the input exposed as [i-output] files its value
    under the key [i-output] and leaves the key [output] absent; likewise
    the handler of the option exposed as [x-output]. The prefix is not
    stripped: the arguments of [strings.HasPrefix] are given in the wrong
    order. *)
Theorem handlers_keep_prefix :
  (let '(r, q) := inputFunc Sample.unix false "i-output" "a.xml" newJobRequest in
   r = Ret None /\
   Inputs q !! "i-output" = Some [opaque_URL "a.xml"] /\
   Inputs q !! "output" = None) /\
  (let '(r, q) := optionFunc Sample.unix false XsString false "x-output" "v" newJobRequest in
   r = Ret None /\
   Options q !! "x-output" = Some ["v"] /\
   Options q !! "output" = None).
Proof. vm_compute. repeat split. Qed.

(** ** URI resolution *)

Section Resolution.

Context (env : Env).

Lemma filepath_ToSlash_ReplaceAll (path : string) :
  filepath_ToSlash env path = GoString.ReplaceAll path (Separator env) "/".
Proof.
  unfold filepath_ToSlash.
  destruct (Ascii.eqb_spec (Separator env) "/") as [->|_]; [|reflexivity].
  symmetry. apply ReplaceAll_same.
Qed.

Lemma pathToUri_local (path basePath : string) (baseUrl ref : URL) :
  GoString.eqb basePath "" = false ->
  url_Parse env (base_file_url basePath) = Ok baseUrl ->
  url_Parse env (filepath_ToSlash env path) = Ok ref ->
  pathToUri env path basePath =
    (let u := URL_ResolveReference env baseUrl ref in
     if os_IsNotExist (os_Stat env path) then (Some u, os_Stat env path)
     else if negb (GoString.eqb (Scheme u) "file") || negb (URL_IsAbs u)
     then (Some u, Some (errors_New "unexpected error"))
     else (Some u, None),
     [CallStat path]).
Proof.
  intros Hbase Hb Hr. unfold pathToUri.
  rewrite Hbase. simpl. rewrite Hb, Hr.
  destruct (os_IsNotExist (os_Stat env path)); [reflexivity|].
  destruct (negb _ || negb _); reflexivity.
Qed.

Lemma file_scheme_IsAbs (u : URL) :
  GoString.eqb (Scheme u) "file" = true ->
  negb (GoString.eqb (Scheme u) "file") || negb (URL_IsAbs u) = false.
Proof.
  intros H. rewrite H. simpl. unfold URL_IsAbs.
  apply eqb_true_iff in H. rewrite H. reflexivity.
Qed.

End Resolution.

(** C7, as the code has it: with an empty base path [pathToUri] makes no
    file system call and returns, without error, the opaque reference
    whose text is the path with every occurrence of the platform's
    separator replaced by a slash. Where the separator is the slash
    itself the path is returned as it is, its backslashes included. *)
Theorem pathToUri_remote (env : Env) (path : string) :
  pathToUri env path "" =
    ((Some (opaque_URL (GoString.ReplaceAll path (Separator env) "/")), None), []).
Proof.
  unfold pathToUri. simpl.
  rewrite filepath_ToSlash_ReplaceAll. reflexivity.
Qed.

(** C7 as stated fails where the separator is a slash: the backslash of
    the path is not turned into a slash. *)
Lemma pathToUri_remote_keeps_backslash :
  pathToUri Sample.unix "a\b" "" = ((Some (opaque_URL "a\b"), None), []) /\
  GoString.ReplaceAll "a\b" "\" "/" = "a/b" /\
  opaque_URL "a\b" <> opaque_URL (GoString.ReplaceAll "a\b" "\" "/").
Proof.
  split; [reflexivity|]. split; [reflexivity|].
  intros H. discriminate H.
Qed.

(** C10, as the code has it: in local mode, once the base and the path
    are parsed, the error of [os.Stat] is returned exactly when it says
    that the path does not exist; any other outcome of [os.Stat] is
    dropped, and the resolved URL is returned without error if its scheme
    is [file], with the error "unexpected error" otherwise. *)
Theorem pathToUri_local_stat (env : Env) (path basePath : string) (baseUrl ref : URL) :
  GoString.eqb basePath "" = false ->
  url_Parse env (base_file_url basePath) = Ok baseUrl ->
  url_Parse env (filepath_ToSlash env path) = Ok ref ->
  let u := URL_ResolveReference env baseUrl ref in
  let r := fst (pathToUri env path basePath) in
  fst r = Some u /\
  (os_IsNotExist (os_Stat env path) = true -> snd r = os_Stat env path) /\
  (os_IsNotExist (os_Stat env path) = false ->
     snd r = if GoString.eqb (Scheme u) "file" then None
             else Some (errors_New "unexpected error")) /\
  (snd r = None <->
     os_IsNotExist (os_Stat env path) = false /\ Scheme u = "file").
Proof.
  intros Hbase Hb Hr u r. subst r.
  rewrite (pathToUri_local env path basePath baseUrl ref Hbase Hb Hr).
  fold u. simpl.
  destruct (os_IsNotExist (os_Stat env path)) eqn:Hstat.
  - simpl. split; [reflexivity|]. split; [reflexivity|].
    split; [intros Hf; discriminate Hf|].
    split.
    + intros Hnil. rewrite Hnil in Hstat. discriminate Hstat.
    + intros [Hf _]. discriminate Hf.
  - pose proof (file_scheme_IsAbs u) as Habs.
    pose proof (eqb_true_iff (Scheme u) "file") as Hiff.
    destruct (GoString.eqb (Scheme u) "file") eqn:Hs.
    + rewrite (Habs eq_refl). simpl.
      pose proof (proj1 Hiff eq_refl) as Hfile.
      split; [reflexivity|]. split; [intros Hf; discriminate Hf|].
      split; [reflexivity|]. split; auto.
    + simpl.
      split; [reflexivity|]. split; [intros Hf; discriminate Hf|].
      split; [reflexivity|]. split.
      * intros Hnil. discriminate Hnil.
      * intros [_ Hfile]. apply Hiff in Hfile. discriminate Hfile.
Qed.

Lemma pathToUri_local_stat_witness :
  let u := {| Scheme := "file"; Opaque := ""; Host := ""; Path := "/cwd/tmp/file.xml" |} in
  let r := fst (pathToUri Sample.no_permission "tmp/file.xml" "/cwd/") in
  fst r = Some u /\
  (os_IsNotExist (os_Stat Sample.no_permission "tmp/file.xml") = true ->
     snd r = os_Stat Sample.no_permission "tmp/file.xml") /\
  (os_IsNotExist (os_Stat Sample.no_permission "tmp/file.xml") = false ->
     snd r = if GoString.eqb (Scheme u) "file" then None
             else Some (errors_New "unexpected error")) /\
  (snd r = None <->
     os_IsNotExist (os_Stat Sample.no_permission "tmp/file.xml") = false /\ Scheme u = "file").
Proof.
  apply (pathToUri_local_stat Sample.no_permission "tmp/file.xml" "/cwd/"
           {| Scheme := "file"; Opaque := ""; Host := ""; Path := "/cwd/" |}
           {| Scheme := ""; Opaque := ""; Host := ""; Path := "tmp/file.xml" |});
    reflexivity.
Defined.

(** C10 as stated fails on a path with a scheme of its own: [os.Stat] is
    refused, the refusal is dropped, and resolution still ends in an
    error, because the resolved URL is not a [file] URL. *)
Lemma pathToUri_permission_error_fails :
  os_Stat Sample.no_permission "http:/x" = Some (PathError "stat" "http:/x" EACCES) /\
  os_IsNotExist (os_Stat Sample.no_permission "http:/x") = false /\
  pathToUri Sample.no_permission "http:/x" "/cwd/" =
    ((Some {| Scheme := "http"; Opaque := ""; Host := ""; Path := "/x" |},
      Some (errors_New "unexpected error")), [CallStat "http:/x"]).
Proof. repeat split. Qed.

(** ** The type validator *)

Section Validator.

Context (env : Env).

Lemma choice_loop_first_success validate (pre post : list DataType) (v : DataType)
    (r result : string) (err : option error) :
  Forall (rejects validate) pre ->
  validate v = Ret (r, None) ->
  choice_loop validate (pre ++ v :: post) result err = Ret (r, None).
Proof.
  intros Hpre Hv. revert result err.
  induction Hpre as [|p pre (rp & ep & Hp) _ IH]; intros result err; simpl.
  - rewrite Hv. reflexivity.
  - rewrite Hp. apply IH.
Qed.

Lemma choice_loop_all_reject validate (Values : list DataType)
    (result : string) (e : error) :
  Forall (rejects validate) Values ->
  exists result' e', choice_loop validate Values result (Some e) = Ret (result', Some e').
Proof.
  intros Hall. revert result e.
  induction Hall as [|p rest (rp & ep & Hp) _ IH]; intros result e; simpl.
  - eauto.
  - rewrite Hp. apply IH.
Qed.

(** A loop that ends without error either ran no iteration or stopped
    at the first variant that accepts. *)
Lemma choice_loop_success_inv validate (Values : list DataType)
    (r result : string) (err : option error) :
  choice_loop validate Values result err = Ret (r, None) ->
  (Values = [] /\ r = result /\ err = None) \/
  (exists pre v post, Values = pre ++ v :: post /\
      Forall (rejects validate) pre /\ validate v = Ret (r, None)).
Proof.
  revert result err.
  induction Values as [|p rest IH]; intros result err H; simpl in H.
  - left. inversion H. auto.
  - right. destruct (validate p) as [[rp [ep|]]|msg] eqn:Hp; [| |discriminate H].
    + apply IH in H. destruct H as [(-> & _ & Hno)|(pre & v & post & -> & Hpre & Hv)].
      * discriminate Hno.
      * exists (p :: pre), v, post. split; [reflexivity|]. split; [|exact Hv].
        constructor; [|exact Hpre]. exists rp, ep. exact Hp.
    + inversion H; subst. exists [], p, rest. split; [reflexivity|].
      split; [constructor|exact Hp].
Qed.

Lemma validateOption_Choice_eq (value : string) (Values : list DataType) (isLocal : bool) :
  validateOption env value (Choice Values) isLocal =
    match
      choice_loop (fun v => validateOption env value v isLocal) Values value None
    with
    | Panic msg => Panic msg
    | Ret (result, Some _) =>
        Ret (result, Some (errors_New (does_not_match env (Choice Values))))
    | Ret (result, None) => Ret (result, None)
    end.
Proof. reflexivity. Qed.

(** The first variant, in declared order, that accepts the value decides
    the result of a [Choice]. *)
Lemma validateOption_Choice_first (value : string) (pre post : list DataType)
    (v : DataType) (r : string) (isLocal : bool) :
  Forall (rejects (fun v => validateOption env value v isLocal)) pre ->
  validateOption env value v isLocal = Ret (r, None) ->
  validateOption env value (Choice (pre ++ v :: post)) isLocal = Ret (r, None).
Proof.
  intros Hpre Hv. rewrite validateOption_Choice_eq.
  rewrite (choice_loop_first_success _ pre post v r value None Hpre Hv).
  reflexivity.
Qed.

(** A [Choice] with at least one variant, all of which reject the value,
    rejects it with one error that names the choice. *)
Lemma validateOption_Choice_none (value : string) (v : DataType)
    (rest : list DataType) (isLocal : bool) :
  Forall (rejects (fun v => validateOption env value v isLocal)) (v :: rest) ->
  exists result,
    validateOption env value (Choice (v :: rest)) isLocal =
      Ret (result, Some (errors_New (does_not_match env (Choice (v :: rest))))).
Proof.
  intros Hall. rewrite validateOption_Choice_eq.
  inversion Hall as [|? ? (rv & ev & Hv) Hrest]; subst.
  simpl. rewrite Hv.
  destruct (choice_loop_all_reject _ rest rv ev Hrest) as (r' & e' & ->).
  eauto.
Qed.

(** A [Choice] with at least one variant accepts the value only if one
    of its variants does, and then with the result of the first such
    variant. *)
Lemma validateOption_Choice_success_inv (value : string) (Values : list DataType)
    (r : string) (isLocal : bool) :
  Values <> [] ->
  validateOption env value (Choice Values) isLocal = Ret (r, None) ->
  exists pre v post, Values = pre ++ v :: post /\
    Forall (rejects (fun v => validateOption env value v isLocal)) pre /\
    validateOption env value v isLocal = Ret (r, None).
Proof.
  intros Hne H. rewrite validateOption_Choice_eq in H.
  destruct (choice_loop _ Values value None) as [[r' [e|]]|msg] eqn:Hloop;
    try discriminate H.
  inversion H; subst r'.
  apply choice_loop_success_inv in Hloop.
  destruct Hloop as [(Hnil & _)|Hfound]; [contradiction|exact Hfound].
Qed.

End Validator.

(** C5: a [Choice] without variants accepts every value, although no
    listed variant validates it: the loop over the variants does not run,
    and the error tested after it is still nil. This is the only way a
    [Choice] accepts a value that none of its variants accepts: in every
    other case it accepts exactly when a variant does, with the result of
    the first such variant in declared order. *)
Theorem validateOption_Choice_accepts (env : Env) (value : string) (isLocal : bool) :
  validateOption env value (Choice []) isLocal = Ret (value, None) /\
  forall (Values : list DataType) (r : string),
    validateOption env value (Choice Values) isLocal = Ret (r, None) <->
    (Values = [] /\ r = value) \/
    (exists pre v post, Values = pre ++ v :: post /\
       Forall (rejects (fun v => validateOption env value v isLocal)) pre /\
       validateOption env value v isLocal = Ret (r, None)).
Proof.
  split; [reflexivity|].
  intros Values r. split.
  - intros H. destruct Values as [|v rest].
    + left. inversion H. auto.
    + right. apply validateOption_Choice_success_inv; [discriminate|exact H].
  - intros [[-> ->]|(pre & v & post & -> & Hpre & Hv)]; [reflexivity|].
    apply validateOption_Choice_first; assumption.
Qed.

(** ** The option handler *)

Lemma map_index_append_option (req : JobRequest) (name v : string) :
  map_index (Options (append_option req name v)) name =
    map_index (Options req) name ++ [v].
Proof. unfold map_index, append_option. simpl. rewrite lookup_insert_eq. reflexivity. Qed.

Lemma lookup_append_option_ne (req : JobRequest) (name other v : string) :
  name <> other ->
  Options (append_option req name v) !! other = Options req !! other.
Proof. intros Hne. unfold append_option. simpl. apply lookup_insert_ne. exact Hne. Qed.

Lemma map_index_append_options (req : JobRequest) (name : string) (vs : list string) :
  map_index (Options (append_options req name vs)) name =
    map_index (Options req) name ++ vs.
Proof.
  revert req. induction vs as [|v vs IH]; intros req; simpl.
  - symmetry. apply app_nil_r.
  - unfold append_options in *. simpl. rewrite IH.
    rewrite map_index_append_option, <- app_assoc. reflexivity.
Qed.

Lemma lookup_append_options_ne (req : JobRequest) (name other : string) (vs : list string) :
  name <> other ->
  Options (append_options req name vs) !! other = Options req !! other.
Proof.
  intros Hne. revert req. induction vs as [|v vs IH]; intros req; [reflexivity|].
  unfold append_options in *. simpl. rewrite IH.
  apply lookup_append_option_ne. exact Hne.
Qed.

Lemma Inputs_append_options (req : JobRequest) (name : string) (vs : list string) :
  Inputs (append_options req name vs) = Inputs req.
Proof.
  revert req. induction vs as [|v vs IH]; intros req; [reflexivity|].
  unfold append_options in *. simpl. rewrite IH. reflexivity.
Qed.

Section OptionHandler.

Context (env : Env) (optionType : DataType) (isLocal : bool).

(** The elements accepted so far are appended before the next element
    is looked at. *)
Lemma optionFunc_loop_accepted (name : string) (pre rs rest : list string)
    (req : JobRequest) :
  Forall2 (fun v r => validateOption env v optionType isLocal = Ret (r, None)) pre rs ->
  optionFunc_loop env optionType isLocal name (pre ++ rest) req =
    optionFunc_loop env optionType isLocal name rest (append_options req name rs).
Proof.
  intros Hpre. revert req.
  induction Hpre as [|v r pre rs Hv _ IH]; intros req; simpl; [reflexivity|].
  rewrite Hv. apply IH.
Qed.

End OptionHandler.

(** C6: the handler of a sequence option splits the value at the commas
    and validates the elements in order. When the elements [pre] are
    accepted, with normalized values [rs], and nothing follows them, the
    handler returns nil; when the element after them is rejected, the
    handler returns the validation error of that element. In both cases
    the job request it leaves is the one it was given with [rs] appended,
    in order, to the sequence of the option: what was appended before a
    rejected element stays. *)
Theorem optionFunc_sequence_appends (env : Env) (optionType : DataType) (isLocal : bool)
    (name name' value : string) (pre rs rest : list string)
    (r' : string) (err : error) (req : JobRequest) :
  control_prefix "x-" name = Ret name' ->
  GoString.Split value "," = pre ++ rest ->
  Forall2 (fun v r => validateOption env v optionType isLocal = Ret (r, None)) pre rs ->
  match rest with
  | [] => True
  | bad :: _ => validateOption env bad optionType isLocal = Ret (r', Some err)
  end ->
  optionFunc env isLocal optionType true name value req =
    (match rest with
     | [] => Ret None
     | _ :: _ => Ret (Some (validationError env name' r' (Some err)))
     end,
     append_options req name' rs) /\
  map_index (Options (append_options req name' rs)) name' =
    map_index (Options req) name' ++ rs.
Proof.
  intros Hname Hsplit Hpre Hrest.
  split; [|apply map_index_append_options].
  unfold optionFunc. rewrite Hname, Hsplit.
  rewrite (optionFunc_loop_accepted env optionType isLocal name' pre rs rest req Hpre).
  destruct rest as [|bad post]; simpl; [reflexivity|].
  rewrite Hrest. reflexivity.
Qed.

Lemma optionFunc_sequence_appends_witness :
  optionFunc Sample.unix false XsBoolean true "flags" "true,1,maybe,false" newJobRequest =
    (Ret (Some (validationError Sample.unix "flags" "maybe"
                  (Some (errors_New
                     (does_not_match Sample.unix XsBoolean +:+ ": " +:+
                      Error_ Sample.unix (NumError "ParseBool" "maybe" "invalid syntax")))))),
     append_options newJobRequest "flags" ["true"; "true"]) /\
  map_index (Options (append_options newJobRequest "flags" ["true"; "true"])) "flags" =
    map_index (Options newJobRequest) "flags" ++ ["true"; "true"].
Proof.
  apply (optionFunc_sequence_appends Sample.unix XsBoolean false "flags" "flags"
           "true,1,maybe,false" ["true"; "1"] ["true"; "true"] ["maybe"; "false"]).
  - reflexivity.
  - reflexivity.
  - repeat constructor.
  - reflexivity.
Defined.

(** ** The last-job-id file *)

Section LastId.

Context (env : Env).

Lemma storeLastId_fst (id : string) (w w' : World) :
  fst (storeLastId env id w) = fst (storeLastId env id w').
Proof.
  unfold storeLastId.
  destruct (create_fault env (LastIdPath env)); [reflexivity|].
  destruct (write_fault env (LastIdPath env) id) as [[n e]|]; reflexivity.
Qed.

Lemma storeLastId_trace (id : string) (w : World) :
  trace (snd (storeLastId env id w)) = trace w ++ store_events env id.
Proof.
  unfold storeLastId, store_events.
  destruct (create_fault env (LastIdPath env)); [reflexivity|].
  destruct (write_fault env (LastIdPath env) id) as [[n e]|]; simpl;
    rewrite <- app_assoc; reflexivity.
Qed.

Lemma storeLastId_stored (id : string) (w : World) :
  fst (storeLastId env id w) = None ->
  files (snd (storeLastId env id w)) !! LastIdPath env = Some id.
Proof.
  unfold storeLastId.
  destruct (create_fault env (LastIdPath env)); [intros H; discriminate H|].
  destruct (write_fault env (LastIdPath env) id) as [[n e]|];
    [intros H; discriminate H|].
  intros _. simpl. apply lookup_insert_eq.
Qed.

End LastId.

(** C9: when [storeLastId(id)] returns no error and the file can be read,
    [getLastId] returns [id] and no error, whatever the file held before:
    the stored id replaces it. *)
Theorem storeLastId_getLastId (env : Env) (id : string) (w : World) :
  fst (storeLastId env id w) = None ->
  read_fault env (LastIdPath env) = None ->
  getLastId env (snd (storeLastId env id w)) = (id, None).
Proof.
  intros Hstore Hread. unfold getLastId.
  rewrite (storeLastId_stored env id w Hstore), Hread. reflexivity.
Qed.

Lemma storeLastId_getLastId_witness :
  getLastId Sample.unix Sample.world0 = ("job-41", None) /\
  getLastId Sample.unix (snd (storeLastId Sample.unix "job-42" Sample.world0)) =
    ("job-42", None).
Proof.
  split; [reflexivity|].
  apply (storeLastId_getLastId Sample.unix "job-42" Sample.world0); reflexivity.
Defined.

(** ** Running a job *)

Section Run.

Context (env : Env).





End Run.

(** C3: a run that is not in the background and has no output returns the
    error about the mandatory output; all it has done by then is to log
    the length of the data, so [Execute] was not called. *)
Theorem run_output_mandatory (env : Env) (j : jobExecution) (w : World) :
  Background (req j) = false ->
  output j = "" ->
  run env j w =
    (Some (errors_New
       "--output option is mandatory if the job is not running in the req.Background"),
     emit (EvLog (length (Data (req j)))) w) /\
  trace (snd (run env j w)) = trace w ++ [EvLog (length (Data (req j)))] /\
  existsb is_remote_call [EvLog (length (Data (req j)))] = false.
Proof.
  intros HB Hout. unfold run. rewrite HB, Hout. simpl. auto.
Qed.

Lemma run_output_mandatory_witness :
  let j := Sample.job_with false false "" [Sample.running; Sample.finished] in
  run Sample.unix j Sample.world0 =
    (Some (errors_New
       "--output option is mandatory if the job is not running in the req.Background"),
     emit (EvLog (length (Data (req j)))) Sample.world0) /\
  trace (snd (run Sample.unix j Sample.world0)) =
    trace Sample.world0 ++ [EvLog (length (Data (req j)))] /\
  existsb is_remote_call [EvLog (length (Data (req j)))] = false.
Proof.
  apply (run_output_mandatory Sample.unix
           (Sample.job_with false false "" [Sample.running; Sample.finished])
           Sample.world0); reflexivity.
Defined.



(** * Further properties *)

(** ** Flag naming and the control prefix *)

(** X1: [getFlagName] returns the name with the prefix when the flagged
    name is one of [commonFlags] or the long name of a flag already on
    the command, and the name itself in every other case. *)
Theorem getFlagName_cases (name prefix : string) (flags : list Flag) :
  (In ("--" +:+ name) (commonFlags ++ flagsToString flags) /\
   getFlagName name prefix flags = prefix +:+ name) \/
  (~ In ("--" +:+ name) (commonFlags ++ flagsToString flags) /\
   getFlagName name prefix flags = name).
Proof.
  destruct (in_dec string_dec ("--" +:+ name) (commonFlags ++ flagsToString flags))
    as [Hin|Hout].
  - left. split; [exact Hin|]. apply getFlagName_loop_In. exact Hin.
  - right. split; [exact Hout|]. apply getFlagName_loop_not_In. exact Hout.
Qed.

(** X2: what the control prefix statement of the handlers does with a
    two-byte prefix: the empty name and the name made of the first byte
    of the prefix panic on [name[2:]], the name equal to the prefix
    becomes the empty name, and every other name is kept as it is. *)
Theorem control_prefix_cases (a b : ascii) (name : string) :
  control_prefix (String a (String b EmptyString)) name =
    if GoString.eqb name "" || GoString.eqb name (String a EmptyString)
    then Panic "slice bounds out of range"
    else if GoString.eqb name (String a (String b EmptyString)) then Ret ""
    else Ret name.
Proof.
  unfold control_prefix, GoString.eqb.
  destruct name as [|c [|d [|e rest]]]; simpl.
  - reflexivity.
  - destruct (Ascii.eqb_spec c a); reflexivity.
  - destruct (Ascii.eqb_spec c a); simpl; [|reflexivity].
    destruct (Ascii.eqb_spec d b); reflexivity.
  - destruct (Ascii.eqb_spec c a); simpl; [|reflexivity].
    destruct (Ascii.eqb_spec d b); reflexivity.
Qed.

(** ** The input handler *)

Lemma map_index_append_input (req : JobRequest) (name : string) (u : URL) :
  map_index (Inputs (append_input req name u)) name =
    map_index (Inputs req) name ++ [u].
Proof. unfold map_index, append_input. simpl. rewrite lookup_insert_eq. reflexivity. Qed.

Lemma map_index_append_inputs (req : JobRequest) (name : string) (us : list URL) :
  map_index (Inputs (append_inputs req name us)) name =
    map_index (Inputs req) name ++ us.
Proof.
  revert req. induction us as [|u us IH]; intros req; simpl.
  - symmetry. apply app_nil_r.
  - unfold append_inputs in *. simpl. rewrite IH.
    rewrite map_index_append_input, <- app_assoc. reflexivity.
Qed.

Section InputHandler.

Context (env : Env).

(** The references resolved so far are appended before the next path is
    looked at. *)
Lemma inputFunc_loop_resolved (name basePath : string) (pre : list string)
    (us : list URL) (rest : list string) (req : JobRequest) :
  Forall2 (fun p u => fst (pathToUri env p basePath) = (Some u, None)) pre us ->
  inputFunc_loop env name basePath (pre ++ rest) req =
    inputFunc_loop env name basePath rest (append_inputs req name us).
Proof.
  intros Hpre. revert req.
  induction Hpre as [|p u pre us Hp _ IH]; intros req; simpl; [reflexivity|].
  rewrite Hp. apply IH.
Qed.

(** With an empty base path every path resolves. *)
Lemma remote_paths_resolve (paths : list string) :
  Forall2 (fun p u => fst (pathToUri env p "") = (Some u, None)) paths
    (map (fun p => opaque_URL (GoString.ReplaceAll p (Separator env) "/")) paths).
Proof.
  induction paths as [|p paths IH]; simpl; constructor; [|exact IH].
  unfold pathToUri. simpl. rewrite filepath_ToSlash_ReplaceAll. reflexivity.
Qed.

End InputHandler.

(** X3: over a remote link the input handler never fails: for a name
    longer than two bytes it returns nil and appends, under that name and
    in order, one opaque reference per comma-separated element of the
    value, each with the platform's separators turned into slashes. *)
Theorem inputFunc_remote (env : Env) (name value : string) (req : JobRequest) :
  2 < String.length name ->
  let us := map (fun p => opaque_URL (GoString.ReplaceAll p (Separator env) "/"))
                (GoString.Split value ",") in
  inputFunc env false name value req = (Ret None, append_inputs req name us) /\
  map_index (Inputs (append_inputs req name us)) name =
    map_index (Inputs req) name ++ us.
Proof.
  intros Hlen us. split; [|apply map_index_append_inputs].
  unfold inputFunc. simpl.
  rewrite (control_prefix_long "i-" name) by (simpl; lia).
  rewrite <- (app_nil_r (GoString.Split value ",")).
  rewrite (inputFunc_loop_resolved env name "" _ us [] req (remote_paths_resolve env _)).
  reflexivity.
Qed.

Lemma inputFunc_remote_witness :
  let us := map (fun p => opaque_URL (GoString.ReplaceAll p (Separator Sample.windows) "/"))
                (GoString.Split "in\a.xml,in\b.xml" ",") in
  inputFunc Sample.windows false "source" "in\a.xml,in\b.xml" newJobRequest =
    (Ret None, append_inputs newJobRequest "source" us) /\
  map_index (Inputs (append_inputs newJobRequest "source" us)) "source" =
    map_index (Inputs newJobRequest) "source" ++ us.
Proof.
  apply (inputFunc_remote Sample.windows "source" "in\a.xml,in\b.xml" newJobRequest).
  simpl. lia.
Defined.

(** X4: the input handler resolves the comma-separated paths in order.
    When the paths [pre] resolve, to the references [us], and nothing
    follows them, the handler returns nil; when the path after them
    fails to resolve, the handler returns the error of that path. In
    both cases the job request it leaves is the one it was given with
    [us] appended, in order, under the name: the references appended
    before a failing path stay. *)
Theorem inputFunc_appends (env : Env) (isLocal : bool) (basePath : string)
    (name name' value : string) (pre : list string) (us : list URL)
    (rest : list string) (err : error) (req : JobRequest) :
  getBasePath env isLocal = Ret basePath ->
  control_prefix "i-" name = Ret name' ->
  GoString.Split value "," = pre ++ rest ->
  Forall2 (fun p u => fst (pathToUri env p basePath) = (Some u, None)) pre us ->
  match rest with
  | [] => True
  | bad :: _ => snd (fst (pathToUri env bad basePath)) = Some err
  end ->
  inputFunc env isLocal name value req =
    (match rest with
     | [] => Ret None
     | _ :: _ => Ret (Some err)
     end,
     append_inputs req name' us) /\
  map_index (Inputs (append_inputs req name' us)) name' =
    map_index (Inputs req) name' ++ us.
Proof.
  intros Hbase Hname Hsplit Hpre Hrest.
  split; [|apply map_index_append_inputs].
  unfold inputFunc. rewrite Hbase, Hname, Hsplit.
  rewrite (inputFunc_loop_resolved env name' basePath pre us rest req Hpre).
  destruct rest as [|bad post]; simpl; [reflexivity|].
  destruct (fst (pathToUri env bad basePath)) as [u e]. simpl in Hrest.
  subst e. destruct u; reflexivity.
Qed.

Lemma inputFunc_appends_witness :
  let a := {| Scheme := "file"; Opaque := ""; Host := ""; Path := "/cwd/a.xml" |} in
  inputFunc Scenario.missing_b true "source" "a.xml,b.xml,c.xml" newJobRequest =
    (Ret (Some (PathError "stat" "b.xml" ENOENT)),
     append_inputs newJobRequest "source" [a]) /\
  map_index (Inputs (append_inputs newJobRequest "source" [a])) "source" =
    map_index (Inputs newJobRequest) "source" ++ [a].
Proof.
  apply (inputFunc_appends Scenario.missing_b true "/cwd/" "source" "source"
           "a.xml,b.xml,c.xml" ["a.xml"]
           [{| Scheme := "file"; Opaque := ""; Host := ""; Path := "/cwd/a.xml" |}]
           ["b.xml"; "c.xml"]).
  - reflexivity.
  - reflexivity.
  - reflexivity.
  - repeat constructor.
  - reflexivity.
Defined.

(** ** What the handlers leave in place *)

Lemma only_appended_refl (req : JobRequest) : only_appended req req.
Proof.
  unfold only_appended. repeat split; try reflexivity;
    intros key; exists []; symmetry; apply app_nil_r.
Qed.

Lemma only_appended_trans (a b c : JobRequest) :
  only_appended a b -> only_appended b c -> only_appended a c.
Proof.
  intros (H1 & H2 & H3 & H4 & H5 & Hi & Ho) (K1 & K2 & K3 & K4 & K5 & Ki & Ko).
  unfold only_appended. repeat split; try congruence.
  - intros key. destruct (Hi key) as [x Hx]. destruct (Ki key) as [y Hy].
    exists (x ++ y). rewrite Hy, Hx, app_assoc. reflexivity.
  - intros key. destruct (Ho key) as [x Hx]. destruct (Ko key) as [y Hy].
    exists (x ++ y). rewrite Hy, Hx, app_assoc. reflexivity.
Qed.

Lemma only_appended_append_input (req : JobRequest) (name : string) (u : URL) :
  only_appended req (append_input req name u).
Proof.
  unfold only_appended. repeat split; try reflexivity.
  - intros key. destruct (decide (name = key)) as [->|Hne].
    + exists [u]. apply map_index_append_input.
    + exists []. rewrite app_nil_r. unfold map_index, append_input. simpl.
      rewrite lookup_insert_ne by exact Hne. reflexivity.
  - intros key. exists []. symmetry. apply app_nil_r.
Qed.

Lemma only_appended_append_option (req : JobRequest) (name v : string) :
  only_appended req (append_option req name v).
Proof.
  unfold only_appended. repeat split; try reflexivity.
  - intros key. exists []. symmetry. apply app_nil_r.
  - intros key. destruct (decide (name = key)) as [->|Hne].
    + exists [v]. apply map_index_append_option.
    + exists []. rewrite app_nil_r. unfold map_index.
      rewrite lookup_append_option_ne by exact Hne. reflexivity.
Qed.

Lemma inputFunc_loop_only_appends (env : Env) (name basePath : string)
    (paths : list string) (req : JobRequest) :
  only_appended req (snd (inputFunc_loop env name basePath paths req)) /\
  Options (snd (inputFunc_loop env name basePath paths req)) = Options req.
Proof.
  revert req. induction paths as [|p paths IH]; intros req; simpl.
  - split; [apply only_appended_refl|reflexivity].
  - destruct (fst (pathToUri env p basePath)) as [[u|] [e|]]; simpl;
      try (split; [apply only_appended_refl|reflexivity]).
    destruct (IH (append_input req name u)) as [Happ Hopt].
    split; [|rewrite Hopt; reflexivity].
    eapply only_appended_trans; [apply only_appended_append_input|exact Happ].
Qed.

Lemma optionFunc_loop_only_appends (env : Env) (optionType : DataType) (isLocal : bool)
    (name : string) (values : list string) (req : JobRequest) :
  only_appended req (snd (optionFunc_loop env optionType isLocal name values req)) /\
  Inputs (snd (optionFunc_loop env optionType isLocal name values req)) = Inputs req.
Proof.
  revert req. induction values as [|v values IH]; intros req; simpl.
  - split; [apply only_appended_refl|reflexivity].
  - destruct (validateOption env v optionType isLocal) as [[r [e|]]|msg]; simpl;
      try (split; [apply only_appended_refl|reflexivity]).
    destruct (IH (append_option req name r)) as [Happ Hin].
    split; [|rewrite Hin; reflexivity].
    eapply only_appended_trans; [apply only_appended_append_option|exact Happ].
Qed.

(** X5: whatever they are given and however they end (nil, an error or
    a panic), the input handler and the option handler only append to
    the job request: the script, nice name, priority, data and background
    flag are untouched, every sequence already in the request is still
    there, in order, at the front of the sequence under its key, the
    input handler leaves the options as they are and the option handler
    the inputs. *)
Theorem handlers_only_append (env : Env) (isLocal : bool) (name value : string)
    (req : JobRequest) :
  (only_appended req (snd (inputFunc env isLocal name value req)) /\
   Options (snd (inputFunc env isLocal name value req)) = Options req) /\
  (forall optionType sequence,
      only_appended req (snd (optionFunc env isLocal optionType sequence name value req)) /\
      Inputs (snd (optionFunc env isLocal optionType sequence name value req)) =
        Inputs req).
Proof.
  split.
  - unfold inputFunc.
    destruct (getBasePath env isLocal) as [basePath|msg]; simpl;
      [|split; [apply only_appended_refl|reflexivity]].
    destruct (control_prefix "i-" name) as [name'|msg]; simpl;
      [|split; [apply only_appended_refl|reflexivity]].
    apply inputFunc_loop_only_appends.
  - intros optionType sequence. unfold optionFunc.
    destruct (control_prefix "x-" name) as [name'|msg]; simpl;
      [|split; [apply only_appended_refl|reflexivity]].
    destruct sequence; [apply optionFunc_loop_only_appends|].
    destruct (validateOption env value optionType isLocal) as [[r [e|]]|msg]; simpl;
      try (split; [apply only_appended_refl|reflexivity]).
    split; [apply only_appended_append_option|reflexivity].
Qed.

(** X6: an option that is not a sequence is validated whole, commas
    included, and is all or nothing: when its handler returns an error
    or panics the job request is left exactly as it was, and when it
    returns nil exactly one value, the normalized one, has been
    appended. *)
Theorem optionFunc_scalar (env : Env) (isLocal : bool) (optionType : DataType)
    (name name' value : string) (req : JobRequest) :
  control_prefix "x-" name = Ret name' ->
  let r := optionFunc env isLocal optionType false name value req in
  (fst r <> Ret None -> snd r = req) /\
  (fst r = Ret None ->
     exists v, validateOption env value optionType isLocal = Ret (v, None) /\
               snd r = append_option req name' v /\
               map_index (Options (snd r)) name' = map_index (Options req) name' ++ [v]).
Proof.
  intros Hname r. subst r. unfold optionFunc. rewrite Hname.
  destruct (validateOption env value optionType isLocal) as [[v [e|]]|msg]; simpl.
  - split; [reflexivity|]. intros H. discriminate H.
  - split; [intros H; contradiction H; reflexivity|].
    intros _. exists v. split; [reflexivity|]. split; [reflexivity|].
    apply map_index_append_option.
  - split; [reflexivity|]. intros H. discriminate H.
Qed.

Lemma optionFunc_scalar_witness :
  let r := optionFunc Sample.unix false XsString false "title" "a,b" newJobRequest in
  (fst r <> Ret None -> snd r = newJobRequest) /\
  (fst r = Ret None ->
     exists v, validateOption Sample.unix "a,b" XsString false = Ret (v, None) /\
               snd r = append_option newJobRequest "title" v /\
               map_index (Options (snd r)) "title" =
                 map_index (Options newJobRequest) "title" ++ [v]).
Proof.
  apply (optionFunc_scalar Sample.unix false XsString "title" "title" "a,b" newJobRequest).
  reflexivity.
Defined.

(** ** More on the type validator *)

(** Induction on data types, with the variants of a choice covered. *)
Lemma DataType_Forall_ind (P : DataType -> Prop) :
  P XsBoolean -> P XsInteger -> P XsAnyURI -> P AnyFileURI -> P AnyDirURI ->
  (forall pattern, P (Pattern pattern)) ->
  (forall Values, Forall P Values -> P (Choice Values)) ->
  (forall value, P (Value value)) ->
  P XsString ->
  forall t, P t.
Proof.
  intros Hb Hi Hu Hf Hd Hp Hc Hv Hs.
  fix IH 1.
  intros [ | | | | | pattern | Values | value | ];
    [exact Hb | exact Hi | exact Hu | exact Hf | exact Hd | apply Hp | | apply Hv
    | exact Hs].
  apply Hc. induction Values as [|v Values IHValues]; constructor.
  - apply IH.
  - exact IHValues.
Qed.

Section Rejection.

Context (env : Env) (value : string) (isLocal : bool).

Lemma wrap_error_rejected (t : DataType) (result r : string) (err : option error)
    (e : error) :
  wrap_error env t result err = (r, Some e) ->
  r = result /\ exists rest, e = errorString ("does not match " +:+ rest).
Proof.
  unfold wrap_error. destruct err as [e0|]; intros H; inversion H; subst.
  split; [reflexivity|]. unfold errors_New, does_not_match. simpl. eauto.
Qed.

Lemma wrap_error_accepted (t : DataType) (result : string) :
  wrap_error env t result None = (result, None).
Proof. reflexivity. Qed.

(** A loop over variants that hand a rejected value back unchanged ends,
    when it ends with an error, with that value. *)
Lemma choice_loop_rejected validate (Values : list DataType) (err : option error)
    (r : string) (e : error) :
  Forall (fun v => forall r e, validate v = Ret (r, Some e) -> r = value) Values ->
  choice_loop validate Values value err = Ret (r, Some e) ->
  r = value.
Proof.
  intros Hall. revert err.
  induction Hall as [|v Values Hv _ IH]; intros err H; simpl in H.
  - inversion H. reflexivity.
  - destruct (validate v) as [[rv [ev|]]|msg] eqn:Ev; try discriminate H.
    rewrite (Hv rv ev eq_refl) in H. apply IH in H. exact H.
Qed.

Lemma validateOption_rejected_value (t : DataType) :
  forall r e, validateOption env value t isLocal = Ret (r, Some e) -> r = value.
Proof.
  induction t as [ | | | | | pattern | Values IH | v | ] using DataType_Forall_ind;
    intros r e H.
  - simpl in H. destruct (strconv_ParseBool value); inversion H; reflexivity.
  - simpl in H. destruct (strconv_ParseInt env value 0 0); inversion H; reflexivity.
  - simpl in H. discriminate H.
  - simpl in H. destruct (getBasePath env isLocal) as [basePath|msg]; [|discriminate H].
    destruct (fst (pathToUri env value basePath)) as [[u|] [e0|]]; inversion H; reflexivity.
  - simpl in H. destruct (getBasePath env isLocal) as [basePath|msg]; [|discriminate H].
    destruct (fst (pathToUri env value basePath)) as [[u|] [e0|]]; inversion H; reflexivity.
  - simpl in H.
    destruct (regexp_MatchString env ("^(?:" +:+ pattern +:+ ")$") value) as [[|]|e0];
      inversion H; reflexivity.
  - rewrite validateOption_Choice_eq in H.
    destruct (choice_loop _ Values value None) as [[r0 [e0|]]|msg] eqn:Hloop;
      inversion H; subst.
    apply (choice_loop_rejected _ Values None r e0 IH Hloop).
  - simpl in H. destruct (negb (GoString.eqb v value)); inversion H; reflexivity.
  - simpl in H. discriminate H.
Qed.

Lemma validateOption_rejected_text (t : DataType) (r : string) (e : error) :
  validateOption env value t isLocal = Ret (r, Some e) ->
  exists rest, e = errorString ("does not match " +:+ rest).
Proof.
  destruct t as [ | | | | | pattern | Values | v | ]; intros H.
  - simpl in H. destruct (strconv_ParseBool value); [discriminate H|].
    inversion H. simpl. eauto.
  - simpl in H. destruct (strconv_ParseInt env value 0 0); [discriminate H|].
    inversion H. simpl. eauto.
  - simpl in H. discriminate H.
  - simpl in H. destruct (getBasePath env isLocal) as [basePath|msg]; [|discriminate H].
    destruct (fst (pathToUri env value basePath)) as [[u|] [e0|]]; inversion H;
      simpl; eauto.
  - simpl in H. destruct (getBasePath env isLocal) as [basePath|msg]; [|discriminate H].
    destruct (fst (pathToUri env value basePath)) as [[u|] [e0|]]; inversion H;
      simpl; eauto.
  - simpl in H.
    destruct (regexp_MatchString env ("^(?:" +:+ pattern +:+ ")$") value) as [[|]|e0];
      inversion H; simpl; eauto.
  - rewrite validateOption_Choice_eq in H.
    destruct (choice_loop _ Values value None) as [[r0 [e0|]]|msg];
      inversion H. simpl. eauto.
  - simpl in H. destruct (negb (GoString.eqb v value)); inversion H. simpl. eauto.
  - simpl in H. discriminate H.
Qed.

End Rejection.

(** X7: a value that the validator rejects, whatever the data type, is
    handed back unchanged, and the error says "does not match " followed
    by what was expected; so the error of the option handler quotes the
    value as it was typed. *)
Theorem validateOption_rejection (env : Env) (value : string) (t : DataType)
    (isLocal : bool) (r : string) (e : error) :
  validateOption env value t isLocal = Ret (r, Some e) ->
  r = value /\ exists rest, e = errorString ("does not match " +:+ rest).
Proof.
  intros H. split.
  - exact (validateOption_rejected_value env value isLocal t r e H).
  - exact (validateOption_rejected_text env value isLocal t r e H).
Qed.

Lemma validateOption_rejection_witness :
  "maybe" = "maybe" /\
  exists rest,
    errors_New (does_not_match Sample.unix (Choice [XsBoolean; Value "auto"])) =
      errorString ("does not match " +:+ rest).
Proof.
  apply (validateOption_rejection Sample.unix "maybe" (Choice [XsBoolean; Value "auto"])
           false "maybe"
           (errors_New (does_not_match Sample.unix (Choice [XsBoolean; Value "auto"])))).
  reflexivity.
Defined.

Section NoPanic.

Context (env : Env) (value : string) (isLocal : bool).

Lemma choice_loop_returns validate (Values : list DataType) (result : string)
    (err : option error) :
  Forall (fun v => exists r e, validate v = Ret (r, e)) Values ->
  exists r e, choice_loop validate Values result err = Ret (r, e).
Proof.
  intros Hall. revert result err.
  induction Hall as [|v Values (rv & ev & Hv) _ IH]; intros result err; simpl.
  - eauto.
  - rewrite Hv. destruct ev as [e0|]; [apply IH|eauto].
Qed.

Lemma validateOption_returns_with_base (basePath : string) (t : DataType) :
  getBasePath env isLocal = Ret basePath ->
  exists r e, validateOption env value t isLocal = Ret (r, e).
Proof.
  intros Hbase.
  induction t as [ | | | | | pattern | Values IH | v | ] using DataType_Forall_ind.
  - simpl. destruct (strconv_ParseBool value); eauto.
  - simpl. destruct (strconv_ParseInt env value 0 0); eauto.
  - simpl. eauto.
  - simpl. rewrite Hbase.
    destruct (fst (pathToUri env value basePath)) as [[u|] [e0|]]; eauto.
  - simpl. rewrite Hbase.
    destruct (fst (pathToUri env value basePath)) as [[u|] [e0|]]; eauto.
  - simpl.
    destruct (regexp_MatchString env ("^(?:" +:+ pattern +:+ ")$") value) as [[|]|e0];
      eauto.
  - rewrite validateOption_Choice_eq.
    destruct (choice_loop_returns _ Values value None IH) as (r & e & ->).
    destruct e; eauto.
  - simpl. destruct (negb (GoString.eqb v value)); eauto.
  - simpl. eauto.
Qed.

End NoPanic.

(** X8: the validator panics only if the working directory cannot be
    read: over a remote link, or when [os.Getwd] succeeds, it returns,
    for every value and every data type, nested choices included. *)
Theorem validateOption_returns (env : Env) (value : string) (t : DataType)
    (isLocal : bool) :
  (if isLocal then exists cwd, os_Getwd env = Ok cwd else True) ->
  exists r e, validateOption env value t isLocal = Ret (r, e).
Proof.
  intros Hcwd. destruct isLocal.
  - destruct Hcwd as [cwd Hcwd].
    apply (validateOption_returns_with_base env value true (cwd +:+ "/")).
    unfold getBasePath. rewrite Hcwd. reflexivity.
  - apply (validateOption_returns_with_base env value false "").
    reflexivity.
Qed.

Lemma validateOption_returns_witness :
  exists r e,
    validateOption Sample.unix "5"
      (Choice [Choice [AnyFileURI; XsInteger]; Value "auto"]) true = Ret (r, e).
Proof.
  apply (validateOption_returns Sample.unix "5"
           (Choice [Choice [AnyFileURI; XsInteger]; Value "auto"]) true).
  simpl. exists "/cwd". reflexivity.
Defined.

(** X9: a value accepted as a boolean is normalized to [true] or
    [false], and the normalized value is accepted again and normalized
    to itself. *)
Theorem validateOption_boolean_canonical (env : Env) (value r : string) (isLocal : bool) :
  validateOption env value XsBoolean isLocal = Ret (r, None) ->
  (r = "true" \/ r = "false") /\
  validateOption env r XsBoolean isLocal = Ret (r, None).
Proof.
  simpl. destruct (strconv_ParseBool value) as [b|e]; intros H; inversion H; subst.
  destruct b; simpl; split; auto.
Qed.

Lemma validateOption_boolean_canonical_witness :
  ("true" = "true" \/ "true" = "false") /\
  validateOption Sample.unix "true" XsBoolean false = Ret ("true", None).
Proof.
  apply (validateOption_boolean_canonical Sample.unix "T" "true" false).
  reflexivity.
Defined.

Section Enumeration.

Context (env : Env) (value : string) (isLocal : bool).

Lemma choice_loop_Value_found (lits : list string) (result : string)
    (err : option error) :
  existsb (fun lit => GoString.eqb lit value) lits = true ->
  choice_loop (fun v => validateOption env value v isLocal) (map Value lits) result err =
    Ret (value, None).
Proof.
  revert result err. induction lits as [|lit lits IH]; intros result err H; simpl in *.
  - discriminate H.
  - destruct (GoString.eqb lit value); simpl in *; [reflexivity|].
    apply IH. exact H.
Qed.

Lemma choice_loop_Value_missing (lits : list string) (e0 : error) :
  existsb (fun lit => GoString.eqb lit value) lits = false ->
  exists e,
    choice_loop (fun v => validateOption env value v isLocal) (map Value lits) value
      (Some e0) = Ret (value, Some e).
Proof.
  revert e0. induction lits as [|lit lits IH]; intros e0 H; simpl in *.
  - eauto.
  - destruct (GoString.eqb lit value); simpl in *; [discriminate H|].
    apply IH. exact H.
Qed.

End Enumeration.

(** X10: a choice among literal values, at least one, is an enumeration:
    a value equal to one of the literals is accepted and returned as it
    is, and any other value is rejected with the one error that names
    the choice. *)
Theorem validateOption_enumeration (env : Env) (value lit : string) (lits : list string)
    (isLocal : bool) :
  validateOption env value (Choice (map Value (lit :: lits))) isLocal =
    if existsb (fun l => GoString.eqb l value) (lit :: lits) then Ret (value, None)
    else Ret (value,
              Some (errors_New (does_not_match env (Choice (map Value (lit :: lits)))))).
Proof.
  rewrite validateOption_Choice_eq.
  destruct (existsb (fun l => GoString.eqb l value) (lit :: lits)) eqn:Hfound.
  - rewrite (choice_loop_Value_found env value isLocal (lit :: lits) value None Hfound).
    reflexivity.
  - simpl in Hfound. apply orb_false_iff in Hfound. destruct Hfound as [Hlit Hlits].
    simpl. rewrite Hlit. simpl.
    destruct (choice_loop_Value_missing env value isLocal lits
                (errors_New ("does not match '" +:+ lit +:+ "'")) Hlits) as [e ->].
    reflexivity.
Qed.

(** ** More on URI resolution *)

Lemma pathToUri_shape (env : Env) (path basePath : string) :
  (exists err, fst (pathToUri env path basePath) = (None, Some err)) \/
  (exists u err, fst (pathToUri env path basePath) = (Some u, err)).
Proof.
  unfold pathToUri.
  destruct (negb (GoString.eqb basePath "")); simpl; [|eauto].
  destruct (url_Parse env (base_file_url basePath)) as [baseUrl|err]; [|eauto].
  destruct (url_Parse env (filepath_ToSlash env path)) as [ref|err]; [|eauto].
  right.
  destruct (os_IsNotExist (os_Stat env path)); [eauto|].
  destruct (negb _ || negb _); eauto.
Qed.

(** X11: the three ways [pathToUri] ends. It returns no reference only
    together with an error of [url.Parse], before any look at the file
    system; in local mode, once both texts are parsed, it returns a
    reference, with or without error, after one [os.Stat] of the path as
    it was given; in remote mode it returns a reference, no error, and
    does not look at the file system. It never returns neither a
    reference nor an error. *)
Theorem pathToUri_outcomes (env : Env) (path basePath : string) :
  (exists err, pathToUri env path basePath = ((None, Some err), [])) \/
  (exists u err, pathToUri env path basePath = ((Some u, err), [CallStat path]) /\
                 basePath <> "") \/
  (exists u, pathToUri env path basePath = ((Some u, None), []) /\ basePath = "").
Proof.
  unfold pathToUri.
  destruct (GoString.eqb basePath "") eqn:Hbase; simpl.
  - right. right. apply eqb_true_iff in Hbase. eauto.
  - assert (Hne : basePath <> "").
    { intros ->. discriminate Hbase. }
    destruct (url_Parse env (base_file_url basePath)) as [baseUrl|err]; [|eauto].
    destruct (url_Parse env (filepath_ToSlash env path)) as [ref|err]; [|eauto].
    right. left.
    destruct (os_IsNotExist (os_Stat env path)); [eauto|].
    destruct (negb _ || negb _); eauto.
Qed.

Section HandlersReturn.

Context (env : Env) (isLocal : bool) (basePath : string).
Context (Hbase : getBasePath env isLocal = Ret basePath).

Lemma inputFunc_loop_returns (name : string) (paths : list string) (req : JobRequest) :
  exists e, fst (inputFunc_loop env name basePath paths req) = Ret e.
Proof.
  revert req. induction paths as [|p paths IH]; intros req; simpl; [eauto|].
  destruct (pathToUri_shape env p basePath) as [(err & H)|(u & err & H)];
    rewrite H; [eauto|].
  destruct err; [eauto|apply IH].
Qed.

Lemma optionFunc_loop_returns (optionType : DataType) (name : string)
    (values : list string) (req : JobRequest) :
  exists e, fst (optionFunc_loop env optionType isLocal name values req) = Ret e.
Proof.
  revert req. induction values as [|v values IH]; intros req; simpl; [eauto|].
  destruct (validateOption_returns_with_base env v isLocal basePath optionType Hbase)
    as (r & e & ->).
  destruct e; simpl; eauto.
Qed.

End HandlersReturn.

(** X12: the handlers panic only where the source shows it: when the
    working directory cannot be read in local mode, or on [name[2:]] for
    a name of fewer than two bytes. With a readable working directory
    and a name longer than two bytes the input handler and the option
    handler return, with nil or an error, for every value; in particular
    the input handler never dereferences a nil reference. *)
Theorem handlers_return (env : Env) (isLocal : bool) (name value : string)
    (req : JobRequest) :
  (if isLocal then exists cwd, os_Getwd env = Ok cwd else True) ->
  2 < String.length name ->
  (exists e, fst (inputFunc env isLocal name value req) = Ret e) /\
  (forall optionType sequence,
      exists e, fst (optionFunc env isLocal optionType sequence name value req) = Ret e).
Proof.
  intros Hcwd Hlen.
  assert (Hbase : exists basePath, getBasePath env isLocal = Ret basePath).
  { unfold getBasePath. destruct isLocal; [|eauto].
    destruct Hcwd as [cwd ->]. eauto. }
  destruct Hbase as [basePath Hbase]. split.
  - unfold inputFunc. rewrite Hbase.
    rewrite (control_prefix_long "i-" name) by (simpl; lia).
    apply inputFunc_loop_returns.
  - intros optionType sequence. unfold optionFunc.
    rewrite (control_prefix_long "x-" name) by (simpl; lia).
    destruct sequence.
    + apply (optionFunc_loop_returns env isLocal basePath Hbase).
    + destruct (validateOption_returns_with_base env value isLocal basePath optionType
                  Hbase) as (r & e & ->).
      destruct e; simpl; eauto.
Qed.

Lemma handlers_return_witness :
  (exists e,
      fst (inputFunc Scenario.missing_b true "source" "a.xml,b.xml" newJobRequest) = Ret e) /\
  (forall optionType sequence,
      exists e,
        fst (optionFunc Scenario.missing_b true optionType sequence "source" "a.xml,b.xml"
               newJobRequest) = Ret e).
Proof.
  apply (handlers_return Scenario.missing_b true "source" "a.xml,b.xml" newJobRequest).
  - simpl. exists "/cwd". reflexivity.
  - simpl. lia.
Defined.

(** ** More on the last-job-id file *)

(** X13: how [storeLastId] fails, and what it never touches. When the
    file cannot be created the error is returned and no file changes, so
    the id stored before can still be read; when the file is created and
    the write fails, the error is returned and the file holds the bytes
    written before the failure: the id stored before is lost. In every
    case the files at other paths are left as they were. *)
Theorem storeLastId_failures (env : Env) (id : string) (w : World) :
  (forall err, create_fault env (LastIdPath env) = Some err ->
     fst (storeLastId env id w) = Some err /\
     files (snd (storeLastId env id w)) = files w /\
     getLastId env (snd (storeLastId env id w)) = getLastId env w) /\
  (forall n err, create_fault env (LastIdPath env) = None ->
     write_fault env (LastIdPath env) id = Some (n, err) ->
     fst (storeLastId env id w) = Some err /\
     files (snd (storeLastId env id w)) !! LastIdPath env =
       Some (String.substring 0 n id)) /\
  (forall path, path <> LastIdPath env ->
     files (snd (storeLastId env id w)) !! path = files w !! path).
Proof.
  unfold storeLastId. split; [|split].
  - intros err Hc. rewrite Hc. simpl. auto.
  - intros n err Hc Hw. rewrite Hc, Hw. simpl. split; [reflexivity|].
    apply lookup_insert_eq.
  - intros path Hne.
    destruct (create_fault env (LastIdPath env)); [reflexivity|].
    destruct (write_fault env (LastIdPath env) id) as [[n e]|]; simpl;
      rewrite !lookup_insert_ne by congruence; reflexivity.
Qed.

(** ** More on running a job *)

Lemma last_cons {A} (a d : A) (l : list A) : List.last (a :: l) d = List.last l a.
Proof.
  revert a d. induction l as [|b l IH]; intros a d; [reflexivity|].
  change (List.last (a :: b :: l) d) with (List.last (b :: l) d).
  rewrite (IH b d), (IH b a). reflexivity.
Qed.

Lemma consume_clean (verbose : bool) (messages : list Message) (status : string)
    (w : World) :
  Forall (fun msg => Error msg = None) messages ->
  consume verbose messages status w =
    (Ok (List.last (map Status messages) status),
     {| files := files w; trace := trace w ++ message_events verbose messages |}).
Proof.
  intros Hall. revert status w.
  induction Hall as [|msg rest Hmsg _ IH]; intros status w.
  - simpl. rewrite app_nil_r. destruct w; reflexivity.
  - cbn [consume map]. rewrite Hmsg, IH, last_cons.
    destruct verbose; simpl; rewrite <- !app_assoc; reflexivity.
Qed.

Lemma consume_broken (verbose : bool) (pre post : list Message) (msg : Message)
    (e : error) (status : string) (w : World) :
  Forall (fun msg => Error msg = None) pre ->
  Error msg = Some e ->
  consume verbose (pre ++ msg :: post) status w =
    (Fail e,
     {| files := files w;
        trace := trace w ++ message_events verbose pre ++ [EvRecv msg] |}).
Proof.
  intros Hall Hmsg. revert status w.
  induction Hall as [|m rest Hm _ IH]; intros status w.
  - simpl. rewrite Hmsg. reflexivity.
  - cbn [consume app]. rewrite Hm, IH.
    destruct verbose; simpl; rewrite <- !app_assoc; reflexivity.
Qed.

Lemma filter_none {A} (f : A -> bool) (l : list A) :
  existsb f l = false -> List.filter f l = [].
Proof.
  induction l as [|a l IH]; simpl; [reflexivity|].
  destruct (f a); simpl; [intros H; discriminate H|exact IH].
Qed.

Lemma message_events_no_fetch (verbose : bool) (messages : list Message) :
  existsb is_fetch (message_events verbose messages) = false.
Proof.
  induction messages as [|msg rest IH]; [reflexivity|].
  simpl. destruct verbose; simpl; exact IH.
Qed.

Lemma message_events_received (verbose : bool) (messages : list Message) :
  List.filter is_recv (message_events verbose messages) = map EvRecv messages.
Proof.
  induction messages as [|msg rest IH]; [reflexivity|].
  simpl. destruct verbose; simpl; rewrite IH; reflexivity.
Qed.

Section RunMore.

Context (env : Env).

(** The events of a run up to the report of the job id. *)
Lemma before_no_fetch (j : jobExecution) (job : Job) :
  existsb is_fetch
    ([EvLog (length (Data (req j)))] ++ warning_events j ++
     [EvExecute (req j); echo_sent job]) = false /\
  existsb is_recv
    ([EvLog (length (Data (req j)))] ++ warning_events j ++
     [EvExecute (req j); echo_sent job]) = false.
Proof.
  unfold warning_events.
  destruct (Background (req j) && negb (GoString.eqb (output j) "")); auto.
Qed.

Lemma store_events_no_fetch (id : string) :
  existsb is_fetch (store_events env id) = false /\
  existsb is_recv (store_events env id) = false.
Proof.
  unfold store_events. destruct (create_fault env (LastIdPath env)); auto.
Qed.

(** A run whose output check passes and whose job is created goes on
    with storing the id, if it has to, and then with the messages. *)
Lemma run_submitted (j : jobExecution) (job : Job) (messages : list Message)
    (w : World) :
  Background (req j) || negb (GoString.eqb (output j) "") = true ->
  Execute (link j) (req j) = Ok (job, messages) ->
  exists w0,
    trace w0 = trace w ++ [EvLog (length (Data (req j)))] ++ warning_events j ++
               [EvExecute (req j); echo_sent job] /\
    files w0 = files w /\
    run env j w =
      if Background (req j) || persistent j then
        match storeLastId env (Id job) w0 with
        | (Some err, w1) => (Some err, w1)
        | (None, w1) => stream_and_fetch env j job messages w1
        end
      else stream_and_fetch env j job messages w0.
Proof.
  intros Hpre Hexec.
  assert (Hguard : negb (Background (req j)) && GoString.eqb (output j) "" = false).
  { destruct (Background (req j)), (GoString.eqb (output j) ""); auto. }
  unfold run. rewrite Hguard, Hexec.
  match goal with
  | |- context [emit (echo_sent job) ?W] => exists (emit (echo_sent job) W)
  end.
  split; [|split].
  - unfold warning_events.
    destruct (Background (req j) && negb (GoString.eqb (output j) "")); simpl;
      rewrite <- !app_assoc; reflexivity.
  - destruct (Background (req j) && negb (GoString.eqb (output j) "")); reflexivity.
  - destruct (Background (req j) || persistent j); [|reflexivity].
    destruct (storeLastId env (Id job) _) as [[err|] w1]; reflexivity.
Qed.

(** When the id is stored without error, or need not be stored, the run
    reaches the message loop. *)
Lemma run_streaming (j : jobExecution) (job : Job) (messages : list Message)
    (w : World) :
  Background (req j) || negb (GoString.eqb (output j) "") = true ->
  Execute (link j) (req j) = Ok (job, messages) ->
  (Background (req j) || persistent j = true ->
   fst (storeLastId env (Id job) w) = None) ->
  exists w1,
    trace w1 = trace w ++ submit_events env j job /\
    files w1 !! LastIdPath env =
      (if Background (req j) || persistent j then Some (Id job)
       else files w !! LastIdPath env) /\
    run env j w = stream_and_fetch env j job messages w1.
Proof.
  intros Hpre Hexec Hstore. unfold submit_events.
  destruct (run_submitted j job messages w Hpre Hexec) as (w0 & Htr & Hfiles & Hrun).
  rewrite Hrun.
  destruct (Background (req j) || persistent j).
  - pose proof (storeLastId_fst env (Id job) w0 w) as Hfst.
    pose proof (storeLastId_trace env (Id job) w0) as Htr1.
    pose proof (storeLastId_stored env (Id job) w0) as Hst.
    destruct (storeLastId env (Id job) w0) as [err w1].
    cbn [fst snd] in Hfst, Htr1, Hst.
    rewrite (Hstore eq_refl) in Hfst. subst err.
    exists w1. split; [|split; [apply Hst; reflexivity|reflexivity]].
    rewrite Htr1, Htr, <- !app_assoc. reflexivity.
  - exists w0. split; [|split; [rewrite Hfiles; reflexivity|reflexivity]].
    rewrite Htr, app_nil_r. reflexivity.
Qed.

Lemma submit_events_quiet (j : jobExecution) (job : Job) :
  existsb is_fetch (submit_events env j job) = false /\
  existsb is_recv (submit_events env j job) = false.
Proof.
  unfold submit_events, warning_events, store_events.
  destruct (Background (req j) && negb (GoString.eqb (output j) ""));
    destruct (Background (req j) || persistent j);
    destruct (create_fault env (LastIdPath env)); auto.
Qed.

End RunMore.

(** X14: a message that carries an error ends the run at once. When the
    job is created, the id stored if it has to be, the messages [pre]
    carry no error and the next one carries the error [e], the run
    returns [e]; it has received [pre] and that message and none of the
    messages after it, and it has neither fetched the results nor
    deleted the job. *)
Theorem run_stream_error (env : Env) (j : jobExecution) (job : Job)
    (pre post : list Message) (msg : Message) (e : error) (w : World) :
  Background (req j) || negb (GoString.eqb (output j) "") = true ->
  Execute (link j) (req j) = Ok (job, pre ++ msg :: post) ->
  (Background (req j) || persistent j = true ->
   fst (storeLastId env (Id job) w) = None) ->
  Forall (fun m => Error m = None) pre ->
  Error msg = Some e ->
  let events :=
    submit_events env j job ++ message_events (verbose j) pre ++ [EvRecv msg] in
  fst (run env j w) = Some e /\
  trace (snd (run env j w)) = trace w ++ events /\
  existsb is_fetch events = false /\
  List.filter is_recv events = map EvRecv (pre ++ [msg]).
Proof.
  intros Hpre Hexec Hstore Hclean Hmsg events.
  destruct (run_streaming env j job _ w Hpre Hexec Hstore) as (w1 & Htr & _ & Hrun).
  rewrite Hrun. unfold stream_and_fetch.
  rewrite (consume_broken (verbose j) pre post msg e (JobStatus job) w1 Hclean Hmsg).
  cbn [fst snd trace]. rewrite Htr. subst events.
  destruct (submit_events_quiet env j job) as [Hf Hr].
  split; [reflexivity|]. split; [rewrite <- !app_assoc; reflexivity|]. split.
  - rewrite !existsb_app, Hf, message_events_no_fetch. reflexivity.
  - rewrite !List.filter_app, (filter_none is_recv _ Hr), message_events_received,
      map_app. reflexivity.
Qed.

Lemma run_stream_error_witness :
  let j := Sample.job_with false false "out"
             [Sample.running; Scenario.broken; Sample.finished] in
  let job := {| Id := "job-42"; JobStatus := "IDLE" |} in
  let events :=
    submit_events Sample.unix j job ++ message_events (verbose j) [Sample.running] ++
    [EvRecv Scenario.broken] in
  fst (run Sample.unix j Sample.world0) = Some (errorString "connection lost") /\
  trace (snd (run Sample.unix j Sample.world0)) = trace Sample.world0 ++ events /\
  existsb is_fetch events = false /\
  List.filter is_recv events = map EvRecv ([Sample.running] ++ [Scenario.broken]).
Proof.
  apply (run_stream_error Sample.unix
           (Sample.job_with false false "out"
              [Sample.running; Scenario.broken; Sample.finished])
           {| Id := "job-42"; JobStatus := "IDLE" |}
           [Sample.running] [Sample.finished] Scenario.broken
           (errorString "connection lost") Sample.world0).
  - reflexivity.
  - reflexivity.
  - intros H. discriminate H.
  - repeat constructor.
  - reflexivity.
Defined.

(** X15: a job that ends with the status [ERROR] is left alone. When the
    job is created, the id stored if it has to be, no message carries an
    error and the last status is [ERROR], the run returns nil without
    fetching results, deleting the job or printing a final status. *)
Theorem run_error_status (env : Env) (j : jobExecution) (job : Job)
    (messages : list Message) (w : World) :
  Background (req j) || negb (GoString.eqb (output j) "") = true ->
  Execute (link j) (req j) = Ok (job, messages) ->
  (Background (req j) || persistent j = true ->
   fst (storeLastId env (Id job) w) = None) ->
  Forall (fun m => Error m = None) messages ->
  final_status job messages = "ERROR" ->
  let events := submit_events env j job ++ message_events (verbose j) messages in
  fst (run env j w) = None /\
  trace (snd (run env j w)) = trace w ++ events /\
  existsb is_fetch events = false.
Proof.
  intros Hpre Hexec Hstore Hclean Hstatus events.
  destruct (run_streaming env j job _ w Hpre Hexec Hstore) as (w1 & Htr & _ & Hrun).
  rewrite Hrun. unfold stream_and_fetch.
  rewrite (consume_clean (verbose j) messages (JobStatus job) w1 Hclean).
  unfold final_status in Hstatus. rewrite Hstatus, eqb_refl.
  cbn [fst snd trace negb]. rewrite Htr. subst events.
  destruct (submit_events_quiet env j job) as [Hf _].
  split; [reflexivity|]. split; [rewrite <- !app_assoc; reflexivity|].
  rewrite existsb_app, Hf, message_events_no_fetch. reflexivity.
Qed.

Lemma run_error_status_witness :
  let j := Sample.job_with false false "out" [Sample.running; Scenario.failed] in
  let job := {| Id := "job-42"; JobStatus := "IDLE" |} in
  let events :=
    submit_events Sample.unix j job ++
    message_events (verbose j) [Sample.running; Scenario.failed] in
  fst (run Sample.unix j Sample.world0) = None /\
  trace (snd (run Sample.unix j Sample.world0)) = trace Sample.world0 ++ events /\
  existsb is_fetch events = false.
Proof.
  apply (run_error_status Sample.unix
           (Sample.job_with false false "out" [Sample.running; Scenario.failed])
           {| Id := "job-42"; JobStatus := "IDLE" |}
           [Sample.running; Scenario.failed] Sample.world0).
  - reflexivity.
  - reflexivity.
  - intros H. discriminate H.
  - repeat constructor.
  - reflexivity.
Defined.

Lemma storeLastId_ok (env : Env) (id : string) (w : World) :
  create_fault env (LastIdPath env) = None ->
  write_fault env (LastIdPath env) id = None ->
  storeLastId env id w =
    (None,
     {| files := <[LastIdPath env := id]> (files w);
        trace := trace w ++ [EvCreate (LastIdPath env); EvWrite (LastIdPath env) id] |}).
Proof.
  intros Hc Hw. unfold storeLastId. rewrite Hc, Hw.
  unfold write_file, emit. simpl.
  rewrite insert_insert_eq, <- app_assoc. reflexivity.
Qed.

(** The state in which the message loop starts when the job is created
    and the last-job-id file, if it is to be written, can be written. *)
Lemma run_started (env : Env) (j : jobExecution) (job : Job)
    (messages : list Message) (w : World) :
  Background (req j) || negb (GoString.eqb (output j) "") = true ->
  Execute (link j) (req j) = Ok (job, messages) ->
  (Background (req j) || persistent j = true ->
   create_fault env (LastIdPath env) = None /\
   write_fault env (LastIdPath env) (Id job) = None) ->
  exists w1,
    run env j w = stream_and_fetch env j job messages w1 /\
    trace w1 =
      trace w ++
      ([EvLog (length (Data (req j)))] ++ warning_events j ++
       [EvExecute (req j); echo_sent job]) ++
      (if Background (req j) || persistent j
       then [EvCreate (LastIdPath env); EvWrite (LastIdPath env) (Id job)] else []) /\
    files w1 =
      if Background (req j) || persistent j
      then <[LastIdPath env := Id job]> (files w) else files w.
Proof.
  intros Hpre Hexec Hfaults.
  destruct (run_submitted env j job messages w Hpre Hexec) as (w0 & Htr & Hfiles & Hrun).
  rewrite Hrun.
  destruct (Background (req j) || persistent j).
  - destruct (Hfaults eq_refl) as [Hc Hw].
    rewrite (storeLastId_ok env (Id job) w0 Hc Hw).
    eexists. split; [reflexivity|]. cbn [trace files].
    rewrite Htr, Hfiles, <- !app_assoc. split; reflexivity.
  - exists w0. split; [reflexivity|].
    rewrite Htr, Hfiles, app_nil_r. split; reflexivity.
Qed.

Lemma finalize_ok (env : Env) (j : jobExecution) (job : Job) (status : string)
    (w : World) :
  zipProcessor_fault env (output j) (zipped j) = None ->
  Results (link j) (Id job) = None ->
  Close_fault env = None ->
  (persistent j = false -> exists deleted, Delete (link j) (Id job) = Ok deleted) ->
  finalize env j job status w =
    (None,
     {| files := results_written env j job (files w);
        trace := trace w ++ fetch_events j job status |}).
Proof.
  intros Hzip Hres Hclose Hdel. unfold finalize, fetch_events, results_written.
  rewrite Hzip, Hres, Hclose.
  destruct (persistent j); simpl.
  - unfold emit, update_files. simpl. rewrite <- !app_assoc. reflexivity.
  - destruct (Hdel eq_refl) as [deleted ->]. unfold emit, update_files. simpl.
    rewrite <- !app_assoc. reflexivity.
Qed.

(** X16: the whole of a run in the foreground when nothing fails. With
    an output, a job that is created, a last-job-id file that can be
    written if the run is persistent, messages without error, a last
    status other than [ERROR] and results that are fetched and closed
    without error, the run returns nil and its events are, in order:
    the submission, the messages, then the writer for the output, the
    results, the close, the deletion of the job and its report unless
    the run is persistent, and the line with the final status. The job
    is deleted only after the results are written and closed. The files
    it leaves are those it found, with the id in the last-job-id file if
    the run is persistent, and then with the results written over them
    at the output. *)
Theorem run_foreground_success (env : Env) (j : jobExecution) (job : Job)
    (messages : list Message) (w : World) :
  Background (req j) = false ->
  GoString.eqb (output j) "" = false ->
  Execute (link j) (req j) = Ok (job, messages) ->
  (persistent j = true ->
   create_fault env (LastIdPath env) = None /\
   write_fault env (LastIdPath env) (Id job) = None) ->
  Forall (fun m => Error m = None) messages ->
  GoString.eqb (final_status job messages) "ERROR" = false ->
  zipProcessor_fault env (output j) (zipped j) = None ->
  Results (link j) (Id job) = None ->
  Close_fault env = None ->
  (persistent j = false -> exists deleted, Delete (link j) (Id job) = Ok deleted) ->
  fst (run env j w) = None /\
  trace (snd (run env j w)) =
    trace w ++
    ([EvLog (length (Data (req j)))] ++ warning_events j ++
     [EvExecute (req j); echo_sent job]) ++
    (if persistent j
     then [EvCreate (LastIdPath env); EvWrite (LastIdPath env) (Id job)] else []) ++
    message_events (verbose j) messages ++
    fetch_events j job (final_status job messages) /\
  files (snd (run env j w)) =
    results_written env j job
      (if persistent j then <[LastIdPath env := Id job]> (files w) else files w).
Proof.
  intros HB Hout Hexec Hstore Hclean Hstatus Hzip Hres Hclose Hdel.
  assert (Hpre : Background (req j) || negb (GoString.eqb (output j) "") = true).
  { rewrite HB, Hout. reflexivity. }
  assert (Hstore' : Background (req j) || persistent j = true ->
                    create_fault env (LastIdPath env) = None /\
                    write_fault env (LastIdPath env) (Id job) = None).
  { rewrite HB. exact Hstore. }
  destruct (run_started env j job _ w Hpre Hexec Hstore') as (w1 & Hrun & Htr & Hfiles).
  rewrite Hrun. unfold stream_and_fetch.
  rewrite (consume_clean (verbose j) messages (JobStatus job) w1 Hclean).
  fold (final_status job messages). rewrite Hstatus, HB. cbn [negb].
  rewrite (finalize_ok env j job _ _ Hzip Hres Hclose Hdel).
  cbn [fst snd trace files]. rewrite Htr, Hfiles, HB. cbn [orb].
  rewrite <- !app_assoc.
  split; [reflexivity|]. split; reflexivity.
Qed.

Lemma run_foreground_success_witness :
  let j := {| link := Sample.link_with [Sample.running; Sample.finished];
              req := Sample.request false; output := "out"; verbose := true;
              persistent := true; zipped := false |} in
  let job := {| Id := "job-42"; JobStatus := "IDLE" |} in
  fst (run Sample.unix j Sample.world0) = None /\
  trace (snd (run Sample.unix j Sample.world0)) =
    trace Sample.world0 ++
    ([EvLog (length (Data (req j)))] ++ warning_events j ++
     [EvExecute (req j); echo_sent job]) ++
    [EvCreate (LastIdPath Sample.unix); EvWrite (LastIdPath Sample.unix) (Id job)] ++
    message_events (verbose j) [Sample.running; Sample.finished] ++
    fetch_events j job (final_status job [Sample.running; Sample.finished]) /\
  files (snd (run Sample.unix j Sample.world0)) =
    <["out/result.xml" := "result of job-42"]>
      (<["/home/user/.daisy-pipeline/lastid" := "job-42"]> (files Sample.world0)).
Proof.
  apply (run_foreground_success Sample.unix
           {| link := Sample.link_with [Sample.running; Sample.finished];
              req := Sample.request false; output := "out"; verbose := true;
              persistent := true; zipped := false |}
           {| Id := "job-42"; JobStatus := "IDLE" |}
           [Sample.running; Sample.finished] Sample.world0).
  - reflexivity.
  - reflexivity.
  - reflexivity.
  - intros _. split; reflexivity.
  - repeat constructor.
  - reflexivity.
  - reflexivity.
  - reflexivity.
  - reflexivity.
  - intros H. discriminate H.
Defined.

(** X17: when [Execute] fails the run returns its error and does no
    more: nothing is reported, stored, received or fetched, and the
    files are as they were. *)
Theorem run_execute_fails (env : Env) (j : jobExecution) (err : error) (w : World) :
  Background (req j) || negb (GoString.eqb (output j) "") = true ->
  Execute (link j) (req j) = Fail err ->
  fst (run env j w) = Some err /\
  trace (snd (run env j w)) =
    trace w ++ [EvLog (length (Data (req j)))] ++ warning_events j ++
    [EvExecute (req j)] /\
  files (snd (run env j w)) = files w.
Proof.
  intros Hpre Hexec.
  assert (Hguard : negb (Background (req j)) && GoString.eqb (output j) "" = false).
  { destruct (Background (req j)), (GoString.eqb (output j) ""); auto. }
  unfold run. rewrite Hguard, Hexec. unfold warning_events.
  destruct (Background (req j) && negb (GoString.eqb (output j) "")); simpl;
    rewrite <- !app_assoc; auto.
Qed.

Lemma run_execute_fails_witness :
  let j := {| link := Scenario.down; req := Sample.request true; output := "out";
              verbose := true; persistent := false; zipped := false |} in
  fst (run Sample.unix j Sample.world0) = Some (errorString "connection refused") /\
  trace (snd (run Sample.unix j Sample.world0)) =
    trace Sample.world0 ++ [EvLog (length (Data (req j)))] ++ warning_events j ++
    [EvExecute (req j)] /\
  files (snd (run Sample.unix j Sample.world0)) = files Sample.world0.
Proof.
  apply (run_execute_fails Sample.unix
           {| link := Scenario.down; req := Sample.request true; output := "out";
              verbose := true; persistent := false; zipped := false |}
           (errorString "connection refused") Sample.world0); reflexivity.
Defined.

(** X18: when the id has to be stored and [storeLastId] fails, the run
    returns that error although the job exists on the server: no message
    is received, no result fetched, and the job is not deleted. *)
Theorem run_store_fails (env : Env) (j : jobExecution) (job : Job)
    (messages : list Message) (err : error) (w : World) :
  Background (req j) || negb (GoString.eqb (output j) "") = true ->
  Execute (link j) (req j) = Ok (job, messages) ->
  Background (req j) || persistent j = true ->
  fst (storeLastId env (Id job) w) = Some err ->
  fst (run env j w) = Some err /\
  trace (snd (run env j w)) = trace w ++ submit_events env j job /\
  existsb is_recv (submit_events env j job) = false /\
  existsb is_fetch (submit_events env j job) = false.
Proof.
  intros Hpre Hexec HstoreId Hfail.
  destruct (run_submitted env j job messages w Hpre Hexec) as (w0 & Htr & _ & Hrun).
  destruct (submit_events_quiet env j job) as [Hf Hr].
  rewrite Hrun. unfold submit_events. rewrite HstoreId.
  pose proof (storeLastId_fst env (Id job) w0 w) as Hfst.
  pose proof (storeLastId_trace env (Id job) w0) as Htr1.
  destruct (storeLastId env (Id job) w0) as [e w1]. cbn [fst snd] in Hfst, Htr1.
  rewrite Hfail in Hfst. subst e. cbn [fst snd].
  rewrite Htr1, Htr, <- !app_assoc.
  unfold submit_events in Hf, Hr. rewrite HstoreId in Hf, Hr.
  split; [reflexivity|]. split; [reflexivity|]. split; assumption.
Qed.

Lemma run_store_fails_witness :
  let j := Sample.job_with true false "" [Sample.running] in
  let job := {| Id := "job-42"; JobStatus := "IDLE" |} in
  fst (run Scenario.read_only j Sample.world0) =
    Some (PathError "open" "/home/user/.daisy-pipeline/lastid" EACCES) /\
  trace (snd (run Scenario.read_only j Sample.world0)) =
    trace Sample.world0 ++ submit_events Scenario.read_only j job /\
  existsb is_recv (submit_events Scenario.read_only j job) = false /\
  existsb is_fetch (submit_events Scenario.read_only j job) = false.
Proof.
  apply (run_store_fails Scenario.read_only (Sample.job_with true false "" [Sample.running])
           {| Id := "job-42"; JobStatus := "IDLE" |} [Sample.running]
           (PathError "open" "/home/user/.daisy-pipeline/lastid" EACCES) Sample.world0);
    reflexivity.
Defined.

Lemma no_fetch_no_delete (evs : list Event) :
  existsb is_fetch evs = false -> existsb is_delete evs = false.
Proof.
  induction evs as [|ev evs IH]; simpl; [reflexivity|].
  intros H. apply orb_false_iff in H. destruct H as [Hev Hevs].
  rewrite (IH Hevs). destruct ev; simpl in *; try reflexivity. discriminate Hev.
Qed.

Section Guards.

Context (env : Env) (j : jobExecution).

Lemma consume_no_fetch (messages : list Message) (status : string) (w : World) :
  exists evs,
    trace (snd (consume (verbose j) messages status w)) = trace w ++ evs /\
    existsb is_fetch evs = false.
Proof.
  revert status w. induction messages as [|msg rest IH]; intros status w; simpl.
  - exists []. rewrite app_nil_r. auto.
  - destruct (Error msg) as [err|].
    + exists [EvRecv msg]. auto.
    + destruct (IH (Status msg)
                  (if verbose j then emit (EvStdout (Text msg +:+ nl)) (emit (EvRecv msg) w)
                   else emit (EvRecv msg) w)) as (evs & Htr & Hno).
      rewrite Htr. destruct (verbose j); simpl.
      * exists (EvRecv msg :: EvStdout (Text msg +:+ nl) :: evs).
        rewrite <- !app_assoc. auto.
      * exists (EvRecv msg :: evs). rewrite <- !app_assoc. auto.
Qed.

Lemma finalize_no_delete (job : Job) (status : string) (w : World) :
  exists evs,
    trace (snd (finalize env j job status w)) = trace w ++ evs /\
    (persistent j = true -> existsb is_delete evs = false).
Proof.
  unfold finalize.
  destruct (zipProcessor_fault env (output j) (zipped j)).
  { eexists [_]. simpl. auto. }
  destruct (Results (link j) (Id job)).
  { eexists [_; _]. simpl. rewrite <- !app_assoc. auto. }
  destruct (Close_fault env).
  { eexists [_; _; _]. simpl. rewrite <- !app_assoc. auto. }
  destruct (persistent j); simpl.
  { eexists [_; _; _; _]. simpl. rewrite <- !app_assoc. auto. }
  destruct (Delete (link j) (Id job)); simpl.
  { eexists [_; _; _; _; _; _]. simpl. rewrite <- !app_assoc.
    split; [reflexivity|]. intros H. discriminate H. }
  { eexists [_; _; _; _]. simpl. rewrite <- !app_assoc.
    split; [reflexivity|]. intros H. discriminate H. }
Qed.

Lemma stream_and_fetch_guards (job : Job) (messages : list Message) (w : World) :
  exists evs,
    trace (snd (stream_and_fetch env j job messages w)) = trace w ++ evs /\
    (Background (req j) = true -> existsb is_fetch evs = false) /\
    (persistent j = true -> existsb is_delete evs = false).
Proof.
  unfold stream_and_fetch.
  destruct (consume_no_fetch messages (JobStatus job) w) as (evs & Htr & Hno).
  destruct (consume (verbose j) messages (JobStatus job) w) as [[status|err] w1];
    cbn [fst snd] in *;
    [|exists evs; auto using no_fetch_no_delete].
  destruct (negb (GoString.eqb status "ERROR"));
    [|exists evs; auto using no_fetch_no_delete].
  destruct (Background (req j)) eqn:HB; cbn [negb];
    [exists evs; auto using no_fetch_no_delete|].
  destruct (finalize_no_delete job status w1) as (evs' & Htr' & Hdel).
  exists (evs ++ evs'). rewrite Htr', Htr, <- app_assoc.
  split; [reflexivity|]. split; [intros H; discriminate H|].
  intros HP. rewrite existsb_app, (no_fetch_no_delete evs Hno), (Hdel HP). reflexivity.
Qed.

End Guards.

(** X19: what a run never does, however the service, the stream and the
    file operations behave. A run in the background never asks for the
    results, never opens the output and never deletes the job; a
    persistent run never deletes the job. *)
Theorem run_guards (env : Env) (j : jobExecution) (w : World) :
  exists events,
    trace (snd (run env j w)) = trace w ++ events /\
    (Background (req j) = true -> existsb is_fetch events = false) /\
    (persistent j = true -> existsb is_delete events = false).
Proof.
  destruct (Background (req j) || negb (GoString.eqb (output j) "")) eqn:Hpre.
  - destruct (Execute (link j) (req j)) as [[job messages]|err] eqn:Hexec.
    + destruct (run_submitted env j job messages w Hpre Hexec)
        as (w0 & Htr & _ & Hrun).
      rewrite Hrun.
      pose proof (proj1 (before_no_fetch j job)) as Hquiet.
      remember ([EvLog (length (Data (req j)))] ++ warning_events j ++
                [EvExecute (req j); echo_sent job]) as before eqn:Ebefore.
      clear Ebefore.
      pose proof (proj1 (store_events_no_fetch env (Id job))) as Hstored.
      destruct (Background (req j) || persistent j).
      * pose proof (storeLastId_trace env (Id job) w0) as Htr1.
        destruct (storeLastId env (Id job) w0) as [[e|] w1]; cbn [fst snd] in Htr1.
        -- exists (before ++ store_events env (Id job)). cbn [snd].
           rewrite Htr1, Htr, <- app_assoc.
           split; [reflexivity|].
           assert (Hno : existsb is_fetch (before ++ store_events env (Id job)) = false).
           { rewrite existsb_app, Hquiet, Hstored. reflexivity. }
           split; intros _; [exact Hno|exact (no_fetch_no_delete _ Hno)].
        -- destruct (stream_and_fetch_guards env j job messages w1)
             as (evs & Htr2 & Hf & Hd).
           exists (before ++ store_events env (Id job) ++ evs).
           rewrite Htr2, Htr1, Htr, <- !app_assoc.
           split; [reflexivity|].
           split; intros H; rewrite !existsb_app.
           ++ rewrite (Hf H), Hquiet, Hstored. reflexivity.
           ++ rewrite (Hd H), (no_fetch_no_delete _ Hquiet),
                (no_fetch_no_delete _ Hstored). reflexivity.
      * destruct (stream_and_fetch_guards env j job messages w0)
          as (evs & Htr2 & Hf & Hd).
        exists (before ++ evs). rewrite Htr2, Htr, <- app_assoc.
        split; [reflexivity|].
        split; intros H; rewrite existsb_app.
        -- rewrite (Hf H), Hquiet. reflexivity.
        -- rewrite (Hd H), (no_fetch_no_delete _ Hquiet). reflexivity.
    + assert (Hguard : negb (Background (req j)) && GoString.eqb (output j) "" = false).
      { destruct (Background (req j)), (GoString.eqb (output j) ""); auto. }
      unfold run. rewrite Hguard, Hexec.
      destruct (Background (req j) && negb (GoString.eqb (output j) "")); simpl.
      * eexists [_; _; _]. rewrite <- !app_assoc. auto.
      * eexists [_; _]. rewrite <- !app_assoc. auto.
  - assert (Hguard : negb (Background (req j)) && GoString.eqb (output j) "" = true).
    { destruct (Background (req j)), (GoString.eqb (output j) ""); auto. }
    unfold run. rewrite Hguard. simpl. eexists [_]. auto.
Qed.

(** ** The control arguments *)

Lemma controlFunc_destination (checkPriority : string -> bool) (arg : ControlArg)
    (j j' : jobExecution) :
  is_destination arg = false ->
  controlFunc checkPriority arg j = (None, j') ->
  output j' = output j /\ Background (req j') = Background (req j) /\
  Data (req j') = Data (req j).
Proof.
  destruct arg; simpl; intros Hd H; try discriminate Hd;
    try (inversion H; subst; simpl; auto).
  destruct (checkPriority priority); inversion H; subst; simpl; auto.
Qed.

Lemma controlFuncs_destination (checkPriority : string -> bool) (args : list ControlArg)
    (j j' : jobExecution) :
  forallb (fun arg => negb (is_destination arg)) args = true ->
  controlFuncs checkPriority args j = (None, j') ->
  output j' = output j /\ Background (req j') = Background (req j) /\
  Data (req j') = Data (req j).
Proof.
  revert j. induction args as [|arg args IH]; intros j Hall H; simpl in *.
  - inversion H. auto.
  - apply andb_true_iff in Hall. destruct Hall as [Harg Hall].
    apply negb_true_iff in Harg.
    destruct (controlFunc checkPriority arg j) as [[err|] j1] eqn:Hstep;
      [discriminate H|].
    destruct (controlFunc_destination checkPriority arg j j1 Harg Hstep)
      as (H1 & H2 & H3).
    destruct (IH j1 Hall H) as (K1 & K2 & K3).
    repeat split; congruence.
Qed.

(** X20: a script command given neither [--output] nor [--background]
    never reaches the server. Starting from the job execution that
    [scriptToCommand] creates, whatever other control arguments are
    handled, in whatever order and number, the run returns the error
    about the mandatory output after its log line, and [Execute] is not
    called. *)
Theorem run_without_destination (env : Env) (checkPriority : string -> bool)
    (lnk : PipelineLink) (scriptId : string) (args : list ControlArg)
    (j : jobExecution) (w : World) :
  forallb (fun arg => negb (is_destination arg)) args = true ->
  controlFuncs checkPriority args (new_jobExecution lnk scriptId) = (None, j) ->
  run env j w =
    (Some (errors_New
       "--output option is mandatory if the job is not running in the req.Background"),
     emit (EvLog 0) w).
Proof.
  intros Hall Hargs.
  destruct (controlFuncs_destination checkPriority args _ j Hall Hargs)
    as (Hout & HB & HD).
  simpl in Hout, HB, HD.
  unfold run. rewrite HB, Hout, HD. reflexivity.
Qed.

Lemma run_without_destination_witness :
  run Sample.unix
    {| link := Sample.link_with [];
       req := {| Script := "dtbook-to-epub3"; Nicename := "my job"; Priority := "high";
                 Options := ∅; Inputs := ∅; Data := []; Background := false |};
       output := ""; verbose := false; persistent := true; zipped := true |}
    Sample.world0 =
    (Some (errors_New
       "--output option is mandatory if the job is not running in the req.Background"),
     emit (EvLog 0) Sample.world0).
Proof.
  apply (run_without_destination Sample.unix Scenario.checkPriority (Sample.link_with [])
           "dtbook-to-epub3"
           [ArgZip; ArgQuiet; ArgPriority "high"; ArgPersistent; ArgNicename "my job"]).
  - reflexivity.
  - reflexivity.
Defined.

(** ** The client commands *)

Lemma length_zero_empty (s : string) :
  Nat.eqb (String.length s) 0 = GoString.eqb s "".
Proof. destruct s; reflexivity. Qed.

(** X21: what the [modify] command sends. When the client cannot be
    looked up, the error of the lookup is returned and [ModifyClient] is
    not called. When it is found, [ModifyClient] is called once, right
    after the lookup, with the id given and, for the role, the contact
    and the secret, the value of the option if one was given and is not
    empty, and the value the server has otherwise; so no option can
    blank a field that the server has. *)
Theorem modify_sends_merged (p : Clients.Pipeline) (parse : option error)
    (client : Clients.Client) (id : string) :
  (forall err, Clients.GetClient p id = Fail err ->
     fst (fst (Clients.modify p parse client id)) = Some err /\
     snd (Clients.modify p parse client id) = [Clients.CallClient id]) /\
  (forall old, Clients.GetClient p id = Ok old ->
     exists sent rest,
       snd (Clients.modify p parse client id) =
         Clients.CallClient id :: Clients.CallModifyClient sent id :: rest /\
       Forall (fun call => forall c i, call <> Clients.CallModifyClient c i) rest /\
       Clients.Id sent = id /\
       Clients.Role sent =
         (if GoString.eqb (Clients.Role client) "" then Clients.Role old
          else Clients.Role client) /\
       Clients.Contact sent =
         (if GoString.eqb (Clients.Contact client) "" then Clients.Contact old
          else Clients.Contact client) /\
       Clients.Secret sent =
         (if GoString.eqb (Clients.Secret client) "" then Clients.Secret old
          else Clients.Secret client) /\
       (Clients.Role old <> "" -> Clients.Role sent <> "") /\
       (Clients.Contact old <> "" -> Clients.Contact sent <> "") /\
       (Clients.Secret old <> "" -> Clients.Secret sent <> "")).
Proof.
  split.
  - intros err Hget. unfold Clients.modify. rewrite Hget. auto.
  - intros old Hget. unfold Clients.modify. rewrite Hget.
    set (sent := Clients.merge _ old id).
    assert (Hfields :
      Clients.Id sent = id /\
      Clients.Role sent =
        (if GoString.eqb (Clients.Role client) "" then Clients.Role old
         else Clients.Role client) /\
      Clients.Contact sent =
        (if GoString.eqb (Clients.Contact client) "" then Clients.Contact old
         else Clients.Contact client) /\
      Clients.Secret sent =
        (if GoString.eqb (Clients.Secret client) "" then Clients.Secret old
         else Clients.Secret client)).
    { subst sent. unfold Clients.merge. simpl. rewrite !length_zero_empty. auto. }
    destruct Hfields as (Hid & Hrole & Hcontact & Hsecret).
    assert (Hkept :
      (Clients.Role old <> "" -> Clients.Role sent <> "") /\
      (Clients.Contact old <> "" -> Clients.Contact sent <> "") /\
      (Clients.Secret old <> "" -> Clients.Secret sent <> "")).
    { rewrite Hrole, Hcontact, Hsecret.
      repeat split; intros Hold;
        match goal with
        | |- (if GoString.eqb ?s "" then _ else _) <> "" =>
            destruct (GoString.eqb s "") eqn:E; [exact Hold|];
            intros Hs; rewrite Hs in E; discriminate E
        end. }
    destruct (Clients.ModifyClient p sent id) as [res|err].
    + destruct parse as [err|].
      * exists sent, []. split; [reflexivity|]. split; [constructor|]. tauto.
      * exists sent, [Clients.CallPrintln "Client successfully modified";
                      Clients.CallRender res].
        split; [reflexivity|].
        split; [repeat constructor; intros c i H; discriminate H|]. tauto.
    + exists sent, []. split; [reflexivity|]. split; [constructor|]. tauto.
Qed.

Lemma clientFuncs_role (args : list Clients.ClientArg) (client client' : Clients.Client) :
  Clients.clientFuncs args client = (None, client') ->
  Clients.Role client' = Clients.Role client \/
  Clients.Role client' = "ADMIN" \/ Clients.Role client' = "CLIENTAPP".
Proof.
  revert client. induction args as [|arg args IH]; intros client H; simpl in H.
  - inversion H. auto.
  - destruct (Clients.clientFunc arg client) as [[err|] c1] eqn:Hstep;
      [discriminate H|].
    apply IH in H.
    assert (Hc1 : Clients.Role c1 = Clients.Role client \/
                  Clients.Role c1 = "ADMIN" \/ Clients.Role c1 = "CLIENTAPP").
    { destruct arg as [v|v|v]; simpl in Hstep.
      - inversion Hstep. auto.
      - unfold Clients.roleFunc in Hstep.
        destruct (GoString.eqb v "ADMIN") eqn:Ea; simpl in Hstep.
        + inversion Hstep. simpl. apply eqb_true_iff in Ea. auto.
        + destruct (GoString.eqb v "CLIENTAPP") eqn:Ec; simpl in Hstep;
            [|discriminate Hstep].
          inversion Hstep. simpl. apply eqb_true_iff in Ec. auto.
      - inversion Hstep. auto. }
    destruct H as [H|H]; [rewrite H; exact Hc1|auto].
Qed.

(** X22: the [modify] command never sends a role of its own making:
    after any options, handled without error from the empty client the
    command starts with, the role it sends to the server is [ADMIN],
    [CLIENTAPP], or the role the server has for the client. *)
Theorem modify_role (p : Clients.Pipeline) (parse : option error)
    (args : list Clients.ClientArg) (client old sent : Clients.Client) (id : string)
    (calls : list Clients.Call) :
  Clients.clientFuncs args Clients.empty = (None, client) ->
  Clients.GetClient p id = Ok old ->
  snd (Clients.modify p parse client id) =
    Clients.CallClient id :: Clients.CallModifyClient sent id :: calls ->
  Clients.Role sent = "ADMIN" \/ Clients.Role sent = "CLIENTAPP" \/
  Clients.Role sent = Clients.Role old.
Proof.
  intros Hargs Hget Hcalls.
  apply clientFuncs_role in Hargs. simpl in Hargs.
  unfold Clients.modify in Hcalls. rewrite Hget in Hcalls.
  assert (Hsent : sent = Clients.merge
            {| Clients.Id := id; Clients.Role := Clients.Role client;
               Clients.Contact := Clients.Contact client;
               Clients.Secret := Clients.Secret client |} old id).
  { destruct (Clients.ModifyClient p _ id) as [res|err];
      [destruct parse|]; simpl in Hcalls; inversion Hcalls; reflexivity. }
  subst sent. simpl.
  destruct Hargs as [H|[H|H]]; rewrite H; simpl; auto.
Qed.

Lemma modify_role_witness :
  let sent := {| Clients.Id := "boss"; Clients.Role := "CLIENTAPP";
                 Clients.Contact := "boss@example.org"; Clients.Secret := "s3cret" |} in
  Clients.Role sent = "ADMIN" \/ Clients.Role sent = "CLIENTAPP" \/
  Clients.Role sent = Clients.Role Scenario.admin.
Proof.
  apply (modify_role Scenario.service None
           [Clients.ArgRole "CLIENTAPP"]
           {| Clients.Id := ""; Clients.Role := "CLIENTAPP"; Clients.Contact := "";
              Clients.Secret := "" |}
           Scenario.admin
           {| Clients.Id := "boss"; Clients.Role := "CLIENTAPP";
              Clients.Contact := "boss@example.org"; Clients.Secret := "s3cret" |}
           "boss"
           [Clients.CallPrintln "Client successfully modified";
            Clients.CallRender
              {| Clients.Id := "boss"; Clients.Role := "CLIENTAPP";
                 Clients.Contact := "boss@example.org"; Clients.Secret := "s3cret" |}]);
    reflexivity.
Defined.

(** ** Sequences of permissive options, and the resolution mode *)

Lemma Split_cons (s : string) (sep : ascii) :
  exists f fs, GoString.Split s sep = f :: fs.
Proof.
  induction s as [|c s (f & fs & IH)]; simpl; [eauto|].
  destruct (Ascii.eqb c sep); [eauto|]. rewrite IH. eauto.
Qed.

Lemma Join_Split (s : string) (sep : ascii) :
  GoString.Join (GoString.Split s sep) sep = s.
Proof.
  induction s as [|c s IH]; [reflexivity|].
  destruct (Split_cons s sep) as (f & fs & Hs).
  cbn [GoString.Split]. rewrite Hs in *.
  destruct (Ascii.eqb_spec c sep) as [->|Hne].
  - change (GoString.Join ("" :: f :: fs) sep)
      with ("" +:+ String sep (GoString.Join (f :: fs) sep)).
    rewrite IH. reflexivity.
  - destruct fs as [|g fs].
    + simpl in *. rewrite IH. reflexivity.
    + change (GoString.Join (String c f :: g :: fs) sep)
        with (String c (f +:+ String sep (GoString.Join (g :: fs) sep))).
      change (GoString.Join (f :: g :: fs) sep)
        with (f +:+ String sep (GoString.Join (g :: fs) sep)) in IH.
      rewrite IH. reflexivity.
Qed.

Lemma optionFunc_loop_permissive (env : Env) (optionType : DataType) (isLocal : bool)
    (name : string) (values : list string) (req : JobRequest) :
  optionType = XsAnyURI \/ optionType = XsString ->
  optionFunc_loop env optionType isLocal name values req =
    (Ret None, append_options req name values).
Proof.
  intros Ht. revert req. induction values as [|v values IH]; intros req; [reflexivity|].
  simpl. destruct Ht as [->| ->]; simpl; apply IH.
Qed.

(** X23: a sequence option of a type that accepts everything (an
    [anyURI], or a type the validator has no case for) keeps every
    comma-separated field of the value: the handler returns nil and
    appends the fields as they are, empty fields included. There is
    always at least one field, so an empty value appends one empty
    string, and the fields joined by commas give back the value. *)
Theorem optionFunc_sequence_permissive (env : Env) (optionType : DataType)
    (isLocal : bool) (name name' value : string) (req : JobRequest) :
  optionType = XsAnyURI \/ optionType = XsString ->
  control_prefix "x-" name = Ret name' ->
  optionFunc env isLocal optionType true name value req =
    (Ret None, append_options req name' (GoString.Split value ",")) /\
  map_index (Options (append_options req name' (GoString.Split value ","))) name' =
    map_index (Options req) name' ++ GoString.Split value "," /\
  GoString.Split value "," <> [] /\
  GoString.Join (GoString.Split value ",") "," = value.
Proof.
  intros Ht Hname. unfold optionFunc. rewrite Hname.
  rewrite (optionFunc_loop_permissive env optionType isLocal name' _ req Ht).
  split; [reflexivity|]. split; [apply map_index_append_options|].
  split; [|apply Join_Split].
  destruct (Split_cons value ",") as (f & fs & ->). discriminate.
Qed.

Lemma optionFunc_sequence_permissive_witness :
  optionFunc Sample.unix false XsString true "langs" "" newJobRequest =
    (Ret None, append_options newJobRequest "langs" (GoString.Split "" ",")) /\
  map_index (Options (append_options newJobRequest "langs" (GoString.Split "" ",")))
    "langs" =
    map_index (Options newJobRequest) "langs" ++ GoString.Split "" "," /\
  GoString.Split "" "," <> [] /\
  GoString.Join (GoString.Split "" ",") "," = "".
Proof.
  apply (optionFunc_sequence_permissive Sample.unix XsString false "langs" "langs" ""
           newJobRequest).
  - right. reflexivity.
  - reflexivity.
Defined.

(** X24: the link decides how paths are resolved. Over a local link the
    base path is the working directory followed by a slash, never
    empty, so a path is either refused by [url.Parse] or checked with
    [os.Stat]; over a remote link the base path is empty, and every path
    becomes an opaque reference without a look at the file system. *)
Theorem resolution_mode (env : Env) (isLocal : bool) (basePath path : string) :
  getBasePath env isLocal = Ret basePath ->
  if isLocal then
    (exists cwd, os_Getwd env = Ok cwd /\ basePath = cwd +:+ "/") /\
    ((exists err, pathToUri env path basePath = ((None, Some err), [])) \/
     snd (pathToUri env path basePath) = [CallStat path])
  else
    basePath = "" /\
    pathToUri env path basePath =
      ((Some (opaque_URL (GoString.ReplaceAll path (Separator env) "/")), None), []).
Proof.
  unfold getBasePath. destruct isLocal.
  - destruct (os_Getwd env) as [cwd|err]; intros H; inversion H; subst.
    split; [eauto|].
    assert (Hne : GoString.eqb (cwd +:+ "/") "" = false).
    { destruct cwd; reflexivity. }
    unfold pathToUri. rewrite Hne. cbn [negb].
    destruct (url_Parse env (base_file_url (cwd +:+ "/"))) as [baseUrl|e]; [|eauto].
    destruct (url_Parse env (filepath_ToSlash env path)) as [ref|e]; [|eauto].
    right.
    destruct (os_IsNotExist (os_Stat env path)); [reflexivity|].
    destruct (negb _ || negb _); reflexivity.
  - intros H. inversion H; subst. split; [reflexivity|].
    unfold pathToUri. simpl. rewrite filepath_ToSlash_ReplaceAll. reflexivity.
Qed.

Lemma resolution_mode_witness :
  (exists cwd, os_Getwd Sample.unix = Ok cwd /\ "/cwd/" = cwd +:+ "/") /\
  ((exists err, pathToUri Sample.unix "a.xml" "/cwd/" = ((None, Some err), [])) \/
   snd (pathToUri Sample.unix "a.xml" "/cwd/") = [CallStat "a.xml"]).
Proof.
  apply (resolution_mode Sample.unix true "/cwd/" "a.xml"). reflexivity.
Defined.

(** ** The id of the job, stored before the messages *)



(** ** Background runs *)


